(** * MusiMind native audio: SoundFontEngine, OboePlayer and the JNI bridge

    A shallow embedding of [SoundFontEngine.cpp], [OboePlayer.cpp] and
    [native-audio.cpp].  The three C++ units talk to three collaborators
    that are not part of the program: TinySoundFont ([tsf.h]), Oboe and the
    Android platform (assets, logcat).  Every call made to them is recorded,
    oldest first, in a trace of [Event]s; what they answer is given by a
    [Platform], a record of functions of the history so far.  Methods are
    state transformers over that trace, written in the order of the C++
    statements. *)

From Stdlib Require Import ZArith List String Bool Lia SpecFloat.
From Stdlib.Strings Require Import Byte.
From stdpp Require Import base option list.
Import ListNotations.

Local Open Scope Z_scope.

(** ** Scalars *)

(** A C [float] is an IEEE-754 binary32 number: 24 bits of precision,
    maximal exponent 128. *)
Definition float32 : Type := spec_float.

(** [+] on two floats, rounding to nearest even. *)
Definition f32_add : float32 -> float32 -> float32 := SFadd 24 128.
Definition f32_div : float32 -> float32 -> float32 := SFdiv 24 128.
Definition f32_of_Z (z : Z) : float32 := binary_normalize 24 128 z 0 false.

(** The literal [0.0f]; also the float whose four bytes are all zero, which
    is what [memset (_, 0, _)] leaves behind. *)
Definition f32_0_0 : float32 := S754_zero false.
(** The literal [1.0f]. *)
Definition f32_1_0 : float32 := S754_finite false 8388608 (-23).
(** The literal [0.8f]: the binary32 number nearest to 8/10. *)
Definition f32_0_8 : float32 := S754_finite false 13421773 (-24).

(** Conversion of a 64-bit [off_t] to [int], as in [(int)dataSize]. *)
Definition to_int (z : Z) : Z := (z + 2 ^ 31) mod 2 ^ 32 - 2 ^ 31.

(** The range of [int], 32 bits wide on every Android ABI. *)
Definition INT_MIN : Z := - 2 ^ 31.
Definition INT_MAX : Z := 2 ^ 31 - 1.

(** [a * b] on two [int]s.  A product outside the range of [int] is a
    signed overflow: undefined, [None]. *)
Definition int_mul (a b : Z) : option Z :=
  let product := a * b in
  if (INT_MIN <=? product) && (product <=? INT_MAX) then Some product else None.

(** [bool] passed where an [int] is expected. *)
Definition int_of_bool (b : bool) : Z := if b then 1 else 0.

(** Addresses of heap objects.  A nullable pointer is an [option]. *)
Definition ptr : Type := nat.

(** ** Oboe data *)

(** [oboe::Result]: [OK] or one of the error enumerators, kept by its code. *)
Inductive Result : Type :=
| OK
| Error (code : Z).

Definition Result_is_OK (r : Result) : bool :=
  match r with OK => true | Error _ => false end.

Inductive Direction : Type := Output | Input.
Inductive PerformanceMode : Type := PerfNone | PowerSaving | LowLatency.
Inductive SharingMode : Type := Exclusive | Shared.
Inductive AudioFormat : Type := Unspecified | I16 | Float.
Inductive Usage : Type := Media | OtherUsage (code : Z).
Inductive ContentType : Type := Music | OtherContent (code : Z).

(** What an [oboe::AudioStreamBuilder] holds when [openStream] is called. *)
Record AudioStreamBuilder : Type := {
  b_direction : Direction;
  b_performanceMode : PerformanceMode;
  b_sharingMode : SharingMode;
  b_format : AudioFormat;
  b_channelCount : Z;
  b_sampleRate : Z;
  b_dataCallback : option ptr;
  b_errorCallback : option ptr;
  b_usage : Usage;
  b_contentType : ContentType
}.

(** What the device settled on for an opened stream. *)
Record Negotiated : Type := {
  n_sampleRate : Z;
  n_channelCount : Z;
  n_framesPerBurst : Z
}.

(** An opened [oboe::AudioStream]: its address, the builder it was opened
    from, and the negotiated format.  Whether it is still open is a matter
    of the trace, see [open_streams]. *)
Record AudioStream : Type := {
  stream_addr : ptr;
  stream_builder : AudioStreamBuilder;
  stream_format : Negotiated
}.

Definition getSampleRate (s : AudioStream) : Z := n_sampleRate (stream_format s).
Definition getChannelCount (s : AudioStream) : Z := n_channelCount (stream_format s).
Definition getFramesPerBurst (s : AudioStream) : Z := n_framesPerBurst (stream_format s).

(** ** TinySoundFont data *)

Inductive TSFOutputMode : Type :=
| TSF_STEREO_INTERLEAVED
| TSF_STEREO_UNWEAVED
| TSF_MONO.

(** ** Android data *)

(** An opened asset: [AAsset_getBuffer] (null when the buffer cannot be
    mapped) and [AAsset_getLength]. *)
Record AAsset : Type := {
  AAsset_getBuffer : option (list byte);
  AAsset_getLength : Z
}.

(** The asset manager: [AAssetManager_open] on a path, null when the asset
    does not exist. *)
Definition AAssetManager : Type := string -> option AAsset.

Definition AAssetManager_open (mgr : AAssetManager) (path : string) : option AAsset :=
  mgr path.

Inductive LogPriority : Type := ANDROID_LOG_INFO | ANDROID_LOG_ERROR.

(** One variadic argument of [__android_log_print]. *)
Inductive LogArg : Type :=
| ArgInt (z : Z)
| ArgStr (s : string)
| ArgFloat (f : float32)
| ArgResultText (r : Result).

(** ** The trace *)

Inductive Event : Type :=
| Log (prio : LogPriority) (tag fmt : string) (args : list LogArg)
| TsfLoadMemory (data : list byte) (size : Z) (ret : option ptr)
| TsfGetPresetCount (f : ptr)
| TsfClose (f : ptr)
| TsfSetOutput (f : ptr) (mode : TSFOutputMode) (samplerate : Z) (global_gain_db : float32)
| TsfNoteOn (f : ptr) (preset_index key : Z) (vel : float32)
| TsfNoteOff (f : ptr) (preset_index key : Z)
| TsfRenderFloat (f : ptr) (samples flag_mixing : Z)
| OboeOpenStream (b : AudioStreamBuilder) (ret : Result) (s : option AudioStream)
| OboeRequestStart (s : ptr) (ret : Result)
| OboeRequestStop (s : ptr)
| OboeClose (s : ptr)
| OboeErrorClose (s : ptr) (error : Result).

Definition Trace : Type := list Event.

(** ** The collaborators' answers *)

Class Platform : Type := {
  (** does [tsf_load_memory (data, size)] parse the blob? *)
  tsf_load_memory_ok : list byte -> Z -> bool;
  (** [tsf_get_presetcount] of a loaded bank *)
  tsf_get_presetcount : Trace -> ptr -> Z;
  (** the contents of [buffer] after [tsf_render_float (f, buffer, samples,
      flag_mixing)], given everything that happened before *)
  tsf_render_float : Trace -> ptr -> list float32 -> Z -> Z -> list float32;
  (** the result of [builder.openStream] and, when it is [OK], the format
      the device settled on *)
  oboe_openStream : Trace -> AudioStreamBuilder -> Result * Negotiated;
  (** the result of [stream->requestStart ()] *)
  oboe_requestStart : Trace -> AudioStream -> Result
}.

(** ** State transformers over the trace *)

Definition M (A : Type) : Type := Trace -> A * Trace.

#[global] Instance M_ret : MRet M := fun A (a : A) (w : Trace) => (a, w).
#[global] Instance M_bind : MBind M :=
  fun A B (k : A -> M B) (c : M A) (w : Trace) => let (a, w') := c w in k a w'.

Definition emit (e : Event) : M unit := fun w => (tt, w ++ [e]).

Definition LOGI (tag fmt : string) (args : list LogArg) : M unit :=
  emit (Log ANDROID_LOG_INFO tag fmt args).
Definition LOGE (tag fmt : string) (args : list LogArg) : M unit :=
  emit (Log ANDROID_LOG_ERROR tag fmt args).

(** ** Reading the trace *)

(** The streams that are open after [w]: opened by [openStream] and not yet
    closed, whether by [close] or by Oboe itself before it reports an
    error. *)
Definition open_step (o : list ptr) (e : Event) : list ptr :=
  match e with
  | OboeOpenStream _ _ (Some s) => o ++ [stream_addr s]
  | OboeClose a => List.filter (fun x => negb (x =? a)%nat) o
  | OboeErrorClose a _ => List.filter (fun x => negb (x =? a)%nat) o
  | _ => o
  end.

Definition open_streams (w : Trace) : list ptr := fold_left open_step w [].

(** No more than one stream is open after any of the events of [l], played
    from a moment when the streams [o] are open. *)
Fixpoint one_open_along (o : list ptr) (l : list Event) : Prop :=
  match l with
  | [] => True
  | e :: l' => (length (open_step o e) <= 1)%nat /\ one_open_along (open_step o e) l'
  end.

(** At no moment from the end of [w0] to the end of [w] were two streams
    open. *)
Definition one_open_since (w0 w : Trace) : Prop :=
  forall w1 w2, w = w0 ++ w1 ++ w2 -> (length (open_streams (w0 ++ w1)) <= 1)%nat.

(** Modelled from the spec: the note state of the synthesis provider, whose
    code ([tsf.h]) is not part of the program.  A pitch sounds on a voice
    from a note-on for it until the next note-off for it, or until the bank
    is closed. *)
Definition sounding_step (f : ptr) (preset_index key : Z) (on : bool) (e : Event) : bool :=
  match e with
  | TsfNoteOn f' p' k' _ =>
      if (f' =? f)%nat && (p' =? preset_index) && (k' =? key) then true else on
  | TsfNoteOff f' p' k' =>
      if (f' =? f)%nat && (p' =? preset_index) && (k' =? key) then false else on
  | TsfClose f' => if (f' =? f)%nat then false else on
  | _ => on
  end.

Definition sounding (w : Trace) (f : ptr) (preset_index key : Z) : bool :=
  fold_left (sounding_step f preset_index key) w false.

(** Modelled from the spec: the output format a bank is configured with,
    that of the last [tsf_set_output] on it. *)
Definition output_step (f : ptr) (cfg : option (TSFOutputMode * Z * float32)) (e : Event)
    : option (TSFOutputMode * Z * float32) :=
  match e with
  | TsfSetOutput f' mode samplerate gain =>
      if (f' =? f)%nat then Some (mode, samplerate, gain) else cfg
  | TsfClose f' => if (f' =? f)%nat then None else cfg
  | _ => cfg
  end.

Definition tsf_output (w : Trace) (f : ptr) : option (TSFOutputMode * Z * float32) :=
  fold_left (output_step f) w None.

(** Kinds of events. *)
Definition is_tsf_call (e : Event) : bool :=
  match e with
  | TsfLoadMemory _ _ _ | TsfGetPresetCount _ | TsfClose _ | TsfSetOutput _ _ _ _
  | TsfNoteOn _ _ _ _ | TsfNoteOff _ _ _ | TsfRenderFloat _ _ _ => true
  | _ => false
  end.

Definition is_bank_reload (e : Event) : bool :=
  match e with
  | TsfLoadMemory _ _ _ | TsfClose _ => true
  | _ => false
  end.

Definition is_oboe_call (e : Event) : bool :=
  match e with
  | OboeOpenStream _ _ _ | OboeRequestStart _ _ | OboeRequestStop _ | OboeClose _ => true
  | _ => false
  end.

Definition is_open_attempt (e : Event) : bool :=
  match e with OboeOpenStream _ _ _ => true | _ => false end.

Definition is_error_log (e : Event) : bool :=
  match e with Log ANDROID_LOG_ERROR _ _ _ => true | _ => false end.

(** The line [OboePlayer::stop] writes when it is done. *)
Definition stopped_line : Event := Log ANDROID_LOG_INFO "OboePlayer" "Audio stream stopped" [].

Definition is_stopped_line (e : Event) : bool :=
  match e with
  | Log ANDROID_LOG_INFO tag fmt [] =>
      String.eqb tag "OboePlayer" && String.eqb fmt "Audio stream stopped"
  | _ => false
  end.

(** Events of the engine: lines of the log and calls to the synthesiser,
    as opposed to what happens to streams. *)
Definition is_engine_event (e : Event) : bool :=
  match e with
  | Log _ _ _ _ | TsfLoadMemory _ _ _ | TsfGetPresetCount _ | TsfClose _
  | TsfSetOutput _ _ _ _ | TsfNoteOn _ _ _ _ | TsfNoteOff _ _ _ | TsfRenderFloat _ _ _ => true
  | _ => false
  end.

Definition is_load (e : Event) : bool :=
  match e with TsfLoadMemory _ _ _ => true | _ => false end.

Definition is_note_event (e : Event) : bool :=
  match e with TsfNoteOn _ _ _ _ | TsfNoteOff _ _ _ => true | _ => false end.

(** A computation that only adds events of the engine to the trace. *)
Definition engine_only {A : Type} (c : M A) : Prop :=
  forall w, exists events,
    snd (c w) = w ++ events /\ Forall (fun e => is_engine_event e = true) events.

(** The banks that are loaded after [w]: returned by a [tsf_load_memory]
    that succeeded and not closed since. *)
Definition loaded_step (l : list ptr) (e : Event) : list ptr :=
  match e with
  | TsfLoadMemory _ _ (Some f) => l ++ [f]
  | TsfClose f => List.filter (fun x => negb (x =? f)%nat) l
  | _ => l
  end.

Definition loaded_banks (w : Trace) : list ptr := fold_left loaded_step w [].

(** ** A platform to run the model on *)

(** A synthesiser that writes the address of the bank, as a float, into
    every sample it is asked for. *)
Definition demo_render (w : Trace) (f : ptr) (buffer : list float32)
    (samples flag_mixing : Z) : list float32 :=
  let n := Nat.min (Z.to_nat (samples * 2)) (length buffer) in
  replicate n (f32_of_Z (Z.of_nat f)) ++ drop n buffer.

(** Banks parse when they are not empty; a stream opens at 44100 Hz unless
    a rate of zero or less is asked for, and starts when it is stereo. *)
Definition demo_platform : Platform := {|
  tsf_load_memory_ok := fun data size => match data with [] => false | _ => true end;
  tsf_get_presetcount := fun _ _ => 128;
  tsf_render_float := demo_render;
  oboe_openStream := fun w b =>
    if b_sampleRate b <=? 0
    then (Error (-889), {| n_sampleRate := 0; n_channelCount := 0; n_framesPerBurst := 0 |})
    else (OK, {| n_sampleRate := 44100;
                 n_channelCount := b_channelCount b;
                 n_framesPerBurst := 192 |});
  oboe_requestStart := fun w s => if getChannelCount s =? 2 then OK else Error (-895)
|}.

(** Assets: a piano bank, a metronome bank, and a file that is empty. *)
Definition demo_assets : AAssetManager :=
  fun path =>
    if String.eqb path "soundfonts/gm.sf2" then
      Some {| AAsset_getBuffer := Some [x52; x49; x46; x46]; AAsset_getLength := 4 |}
    else if String.eqb path "soundfonts/Metronom.sf2" then
      Some {| AAsset_getBuffer := Some [x52; x49; x46; x46; x00]; AAsset_getLength := 5 |}
    else if String.eqb path "soundfonts/empty.sf2" then
      Some {| AAsset_getBuffer := Some []; AAsset_getLength := 0 |}
    else None.

(** An asset that says it is four bytes over 2 GiB long. *)
Definition demo_assets_huge : AAssetManager :=
  fun path => Some {| AAsset_getBuffer := Some [x52]; AAsset_getLength := 2 ^ 31 + 4 |}.

(** Assets without the metronome bank. *)
Definition demo_assets_piano_only : AAssetManager :=
  fun path =>
    if String.eqb path "soundfonts/gm.sf2" then
      Some {| AAsset_getBuffer := Some [x52; x49; x46; x46]; AAsset_getLength := 4 |}
    else None.

(** ** TinySoundFont calls *)

Section Model.
Context {platform : Platform}.

(** [tsf_load_memory]: a fresh [tsf] object when the blob parses, null
    otherwise.  The address of the new object is the position of the call
    in the trace, so no two loads return the same one. *)
Definition tsf_load_memory (data : list byte) (size : Z) : M (option ptr) :=
  fun w =>
    let ret := if tsf_load_memory_ok data size then Some (length w) else None in
    (ret, w ++ [TsfLoadMemory data size ret]).

Definition tsf_presetcount (f : ptr) : M Z :=
  fun w => (tsf_get_presetcount w f, w ++ [TsfGetPresetCount f]).

Definition tsf_close (f : ptr) : M unit := emit (TsfClose f).

Definition tsf_set_output (f : ptr) (mode : TSFOutputMode) (samplerate : Z)
    (global_gain_db : float32) : M unit :=
  emit (TsfSetOutput f mode samplerate global_gain_db).

Definition tsf_note_on (f : ptr) (preset_index key : Z) (vel : float32) : M unit :=
  emit (TsfNoteOn f preset_index key vel).

Definition tsf_note_off (f : ptr) (preset_index key : Z) : M unit :=
  emit (TsfNoteOff f preset_index key).

(** [tsf_render_float (f, buffer, samples, flag_mixing)]: returns the new
    contents of [buffer]. *)
Definition tsf_render (f : ptr) (buffer : list float32) (samples flag_mixing : Z)
    : M (list float32) :=
  fun w => (tsf_render_float w f buffer samples flag_mixing,
            w ++ [TsfRenderFloat f samples flag_mixing]).

(** The synthesiser writes into the buffer it is given: the buffer has as
    many floats after the call as before. *)
Definition renders_in_place : Prop :=
  forall (w : Trace) (f : ptr) (buffer : list float32) (samples flag_mixing : Z),
    length (tsf_render_float w f buffer samples flag_mixing) = length buffer.

(** ** SoundFontEngine *)

Definition SF_TAG : string := "SoundFontEngine".

Definition METRONOME_NOTE_ACCENTED : Z := 76.
Definition METRONOME_NOTE_NORMAL : Z := 77.
Definition METRONOME_VELOCITY : float32 := f32_1_0.

(** The members of the class, but for [m_mutex]: every method that takes
    the lock holds it from its first statement to its last, and the methods
    below are those whole bodies. *)
Record SoundFontEngine : Type := {
  m_tsf : option ptr;
  m_tsfMetronome : option ptr;
  m_assetManager : option AAssetManager;
  m_sampleRate : Z;
  m_metronomeClick : bool;
  m_metronomeAccented : bool
}.

Definition set_m_tsf (v : option ptr) (this : SoundFontEngine) : SoundFontEngine :=
  {| m_tsf := v;
     m_tsfMetronome := m_tsfMetronome this;
     m_assetManager := m_assetManager this;
     m_sampleRate := m_sampleRate this;
     m_metronomeClick := m_metronomeClick this;
     m_metronomeAccented := m_metronomeAccented this |}.

Definition set_m_tsfMetronome (v : option ptr) (this : SoundFontEngine) : SoundFontEngine :=
  {| m_tsf := m_tsf this;
     m_tsfMetronome := v;
     m_assetManager := m_assetManager this;
     m_sampleRate := m_sampleRate this;
     m_metronomeClick := m_metronomeClick this;
     m_metronomeAccented := m_metronomeAccented this |}.

Definition set_m_assetManager (v : option AAssetManager) (this : SoundFontEngine)
    : SoundFontEngine :=
  {| m_tsf := m_tsf this;
     m_tsfMetronome := m_tsfMetronome this;
     m_assetManager := v;
     m_sampleRate := m_sampleRate this;
     m_metronomeClick := m_metronomeClick this;
     m_metronomeAccented := m_metronomeAccented this |}.

Definition set_m_sampleRate (v : Z) (this : SoundFontEngine) : SoundFontEngine :=
  {| m_tsf := m_tsf this;
     m_tsfMetronome := m_tsfMetronome this;
     m_assetManager := m_assetManager this;
     m_sampleRate := v;
     m_metronomeClick := m_metronomeClick this;
     m_metronomeAccented := m_metronomeAccented this |}.

(** [SoundFontEngine::SoundFontEngine ()], with the member initialisers of
    the header. *)
Definition SoundFontEngine_ctor : M SoundFontEngine :=
  LOGI SF_TAG "SoundFontEngine created" [];;
  mret {| m_tsf := None;
          m_tsfMetronome := None;
          m_assetManager := None;
          m_sampleRate := 44100;
          m_metronomeClick := false;
          m_metronomeAccented := false |}.

(** [if (handle) { tsf_close (handle); handle = nullptr; }] *)
Definition close_if_loaded (handle : option ptr) : M (option ptr) :=
  match handle with
  | Some f => tsf_close f;; mret None
  | None => mret None
  end.

(** [SoundFontEngine::~SoundFontEngine ()] *)
Definition SoundFontEngine_dtor (this : SoundFontEngine) : M unit :=
  close_if_loaded (m_tsf this);;
  close_if_loaded (m_tsfMetronome this);;
  LOGI SF_TAG "SoundFontEngine destroyed" [].

(** [SoundFontEngine::loadSoundFont].  Reading and closing the asset leave
    nothing in the trace. *)
Definition loadSoundFont (assetManager : AAssetManager) (path : string) : M (option ptr) :=
  match AAssetManager_open assetManager path with
  | None =>
      LOGE SF_TAG "Failed to open SoundFont asset: %s" [ArgStr path];;
      mret None
  | Some asset =>
      let data := AAsset_getBuffer asset in
      let dataSize := AAsset_getLength asset in
      match data with
      | Some bytes =>
          if dataSize <=? 0 then
            LOGE SF_TAG "Failed to get SoundFont data for: %s" [ArgStr path];;
            mret None
          else
            LOGI SF_TAG "Loading SoundFont: %s (%ld bytes)" [ArgStr path; ArgInt dataSize];;
            soundfont ← tsf_load_memory bytes (to_int dataSize);
            match soundfont with
            | None =>
                LOGE SF_TAG "Failed to parse SoundFont: %s" [ArgStr path];;
                mret None
            | Some f =>
                count ← tsf_presetcount f;
                LOGI SF_TAG "SoundFont loaded: %s, presets: %d" [ArgStr path; ArgInt count];;
                mret (Some f)
            end
      | None =>
          LOGE SF_TAG "Failed to get SoundFont data for: %s" [ArgStr path];;
          mret None
      end
  end.

Definition initialize (this : SoundFontEngine) (assetManager : AAssetManager)
    (pianoSfPath metronomeSfPath : string) : M (bool * SoundFontEngine) :=
  let this := set_m_assetManager (Some assetManager) this in
  (* Close existing instances *)
  h ← close_if_loaded (m_tsf this);
  let this := set_m_tsf h this in
  h ← close_if_loaded (m_tsfMetronome this);
  let this := set_m_tsfMetronome h this in
  (* Load piano SoundFont *)
  h ← loadSoundFont assetManager pianoSfPath;
  let this := set_m_tsf h this in
  match m_tsf this with
  | None => mret (false, this)
  | Some f =>
      tsf_set_output f TSF_STEREO_INTERLEAVED (m_sampleRate this) f32_0_0;;
      (* Load metronome SoundFont *)
      h ← loadSoundFont assetManager metronomeSfPath;
      let this := set_m_tsfMetronome h this in
      match m_tsfMetronome this with
      | Some fm =>
          tsf_set_output fm TSF_STEREO_INTERLEAVED (m_sampleRate this) f32_0_0;;
          LOGI SF_TAG "Metronome SoundFont loaded successfully" []
      | None =>
          LOGE SF_TAG "Failed to load metronome SoundFont, will use synthetic fallback" []
      end;;
      LOGI SF_TAG "SoundFontEngine initialized with piano and metronome SoundFonts" [];;
      mret (true, this)
  end.

(** The two-argument overload. *)
Definition initialize_legacy (this : SoundFontEngine) (assetManager : AAssetManager)
    (sfPath : string) : M (bool * SoundFontEngine) :=
  initialize this assetManager sfPath "soundfonts/Metronom.sf2".

Definition setSampleRate (this : SoundFontEngine) (sampleRate : Z) : M SoundFontEngine :=
  let this := set_m_sampleRate sampleRate this in
  match m_tsf this with
  | Some f => tsf_set_output f TSF_STEREO_INTERLEAVED sampleRate f32_0_0
  | None => mret tt
  end;;
  match m_tsfMetronome this with
  | Some fm => tsf_set_output fm TSF_STEREO_INTERLEAVED sampleRate f32_0_0
  | None => mret tt
  end;;
  mret this.

(** The calls [setSampleRate] makes to the synthesiser: one for each voice
    that is loaded. *)
Definition configuration_calls (this : SoundFontEngine) (sampleRate : Z) : list Event :=
  match m_tsf this with
  | Some f => [TsfSetOutput f TSF_STEREO_INTERLEAVED sampleRate f32_0_0]
  | None => []
  end ++
  match m_tsfMetronome this with
  | Some fm => [TsfSetOutput fm TSF_STEREO_INTERLEAVED sampleRate f32_0_0]
  | None => []
  end.

Definition noteOn (this : SoundFontEngine) (channel midiNote : Z) (velocity : float32)
    : M SoundFontEngine :=
  match m_tsf this with
  | Some f =>
      LOGI SF_TAG "Note ON: channel=%d, note=%d, velocity=%.2f"
        [ArgInt channel; ArgInt midiNote; ArgFloat velocity];;
      (* Use preset 0 (Grand Piano) for all notes *)
      tsf_note_on f 0 midiNote velocity;;
      mret this
  | None => mret this
  end.

Definition noteOff (this : SoundFontEngine) (channel midiNote : Z) : M SoundFontEngine :=
  match m_tsf this with
  | Some f => tsf_note_off f 0 midiNote;; mret this
  | None => mret this
  end.

Definition setPreset (this : SoundFontEngine) (channel preset : Z) : M SoundFontEngine :=
  LOGI SF_TAG "Set preset: channel=%d, preset=%d" [ArgInt channel; ArgInt preset];;
  mret this.

Definition playMetronomeClick (this : SoundFontEngine) (isAccented : bool)
    : M SoundFontEngine :=
  match m_tsfMetronome this with
  | Some fm =>
      let note := if isAccented then METRONOME_NOTE_ACCENTED else METRONOME_NOTE_NORMAL in
      let velocity := if isAccented then f32_1_0 else f32_0_8 in
      (* Turn off any previous note quickly and start new one *)
      tsf_note_off fm 0 METRONOME_NOTE_NORMAL;;
      tsf_note_off fm 0 METRONOME_NOTE_ACCENTED;;
      tsf_note_on fm 0 note velocity;;
      LOGI SF_TAG "Metronome click (SoundFont): note=%d, accented=%d"
        [ArgInt note; ArgInt (int_of_bool isAccented)];;
      mret this
  | None =>
      LOGE SF_TAG "Metronome SoundFont not loaded!" [];;
      mret this
  end.

(** [m_tsf != nullptr] and [m_tsfMetronome != nullptr] *)
Definition isLoaded (this : SoundFontEngine) : bool :=
  match m_tsf this with Some _ => true | None => false end.
Definition isMetronomeLoaded (this : SoundFontEngine) : bool :=
  match m_tsfMetronome this with Some _ => true | None => false end.

(** [memset (buf, 0, count * sizeof (float))].  A negative count, turned
    into a [size_t], or one beyond the capacity of [buf] runs off the
    buffer: undefined, [None]. *)
Definition memset_zero (buf : list float32) (count : Z) : option (list float32) :=
  if (0 <=? count) && (count <=? Z.of_nat (length buf))
  then Some (replicate (Z.to_nat count) f32_0_0 ++ drop (Z.to_nat count) buf)
  else None.

(** [for (; i < bound; i++) output[i] += metronomeBuffer[i];] with
    [remaining] iterations to go.  Neither [float*] nor
    [std::vector::operator[]] checks the index: a read or write out of range
    is undefined, [None]. *)
Fixpoint mix_loop (remaining i : nat) (output metronomeBuffer : list float32)
    : option (list float32) :=
  match remaining with
  | O => Some output
  | S remaining' =>
      match output !! i, metronomeBuffer !! i with
      | Some o, Some m =>
          mix_loop remaining' (S i) (<[i := f32_add o m]> output) metronomeBuffer
      | _, _ => None
      end
  end.

(** [SoundFontEngine::render].  [output] is the memory the pointer leads
    to, as far as the caller owns it; the result is its new contents.
    [numFrames * 2] is a product of two [int]s wherever it stands: in the
    size of the [memset], which is evaluated first and whatever the voices,
    in the size of the scratch vector and in the bound of the loop.  When
    it overflows the call is undefined, [None].  Within the buffer the
    count times [sizeof (float)] is the size of an object, so it fits
    [size_t]. *)
Definition render (this : SoundFontEngine) (output : list float32) (numFrames : Z)
    : Trace -> option (list float32 * Trace) :=
  fun w =>
    match int_mul numFrames 2 with
    | None => None
    | Some count =>
        (* Clear output buffer *)
        match memset_zero output count with
        | None => None
        | Some output =>
            (* Render piano SoundFont *)
            let '(output, w) :=
              match m_tsf this with
              | Some f => tsf_render f output numFrames 0 w
              | None => (output, w)
              end in
            (* Mix in metronome SoundFont *)
            match m_tsfMetronome this with
            | Some fm =>
                let metronomeBuffer := replicate (Z.to_nat count) f32_0_0 in
                let '(metronomeBuffer, w) := tsf_render fm metronomeBuffer numFrames 0 w in
                match mix_loop (Z.to_nat count) 0 output metronomeBuffer with
                | Some output => Some (output, w)
                | None => None
                end
            | None => Some (output, w)
            end
        end
    end.

(** ** Oboe calls *)

(** What [builder.openStream (m_stream)] leaves behind: the stream now held
    by the shared pointer when the result is [OK], and otherwise the error
    code, the shared pointer having been reset. *)
Inductive Opened : Type :=
| StreamOpened (s : AudioStream)
| StreamNotOpened (code : Z).

Definition openStream (b : AudioStreamBuilder) : M Opened :=
  fun w =>
    match oboe_openStream w b with
    | (OK, fmt) =>
        let s := {| stream_addr := length w; stream_builder := b; stream_format := fmt |} in
        (StreamOpened s, w ++ [OboeOpenStream b OK (Some s)])
    | (Error code, _) =>
        (StreamNotOpened code, w ++ [OboeOpenStream b (Error code) None])
    end.

Definition requestStart (s : AudioStream) : M Result :=
  fun w =>
    let result := oboe_requestStart w s in
    (result, w ++ [OboeRequestStart (stream_addr s) result]).

Definition requestStop (s : AudioStream) : M unit := emit (OboeRequestStop (stream_addr s)).

Definition close (s : AudioStream) : M unit := emit (OboeClose (stream_addr s)).

(** ** OboePlayer *)

Definition OBOE_TAG : string := "OboePlayer".

(** The members of the class, and [this_addr], the address of the object,
    which is what [this] is when the callbacks are registered. *)
Record OboePlayer : Type := {
  this_addr : ptr;
  m_stream : option AudioStream;
  m_engine : SoundFontEngine;
  OboePlayer_m_sampleRate : Z;
  m_channelCount : Z;
  m_isRunning : bool
}.

Definition set_m_stream (v : option AudioStream) (this : OboePlayer) : OboePlayer :=
  {| this_addr := this_addr this;
     m_stream := v;
     m_engine := m_engine this;
     OboePlayer_m_sampleRate := OboePlayer_m_sampleRate this;
     m_channelCount := m_channelCount this;
     m_isRunning := m_isRunning this |}.

Definition set_m_engine (v : SoundFontEngine) (this : OboePlayer) : OboePlayer :=
  {| this_addr := this_addr this;
     m_stream := m_stream this;
     m_engine := v;
     OboePlayer_m_sampleRate := OboePlayer_m_sampleRate this;
     m_channelCount := m_channelCount this;
     m_isRunning := m_isRunning this |}.

Definition set_OboePlayer_m_sampleRate (v : Z) (this : OboePlayer) : OboePlayer :=
  {| this_addr := this_addr this;
     m_stream := m_stream this;
     m_engine := m_engine this;
     OboePlayer_m_sampleRate := v;
     m_channelCount := m_channelCount this;
     m_isRunning := m_isRunning this |}.

Definition set_m_isRunning (v : bool) (this : OboePlayer) : OboePlayer :=
  {| this_addr := this_addr this;
     m_stream := m_stream this;
     m_engine := m_engine this;
     OboePlayer_m_sampleRate := OboePlayer_m_sampleRate this;
     m_channelCount := m_channelCount this;
     m_isRunning := v |}.

(** [OboePlayer::OboePlayer ()]: the member [m_engine] is constructed, then
    the body runs.  The new object sits at a fresh address. *)
Definition OboePlayer_ctor : M OboePlayer :=
  fun w =>
    (engine ← SoundFontEngine_ctor;
     LOGI OBOE_TAG "OboePlayer created" [];;
     mret {| this_addr := length w;
             m_stream := None;
             m_engine := engine;
             OboePlayer_m_sampleRate := 48000;
             m_channelCount := 2;
             m_isRunning := false |}) w.

(** The builder as [start] has set it up when it calls [openStream]. *)
Definition start_builder (this : OboePlayer) : AudioStreamBuilder :=
  {| b_direction := Output;
     b_performanceMode := LowLatency;
     b_sharingMode := Exclusive;
     b_format := Float;
     b_channelCount := m_channelCount this;
     b_sampleRate := OboePlayer_m_sampleRate this;
     b_dataCallback := Some (this_addr this);
     b_errorCallback := Some (this_addr this);
     b_usage := Media;
     b_contentType := Music |}.

Definition start (this : OboePlayer) : M (bool * OboePlayer) :=
  if m_isRunning this then mret (true, this)
  else
    opened ← openStream (start_builder this);
    match opened with
    | StreamNotOpened code =>
        let this := set_m_stream None this in
        LOGE OBOE_TAG "Failed to open stream: %s" [ArgResultText (Error code)];;
        mret (false, this)
    | StreamOpened stream =>
        let this := set_m_stream (Some stream) this in
        (* Get actual sample rate *)
        let this := set_OboePlayer_m_sampleRate (getSampleRate stream) this in
        engine ← setSampleRate (m_engine this) (OboePlayer_m_sampleRate this);
        let this := set_m_engine engine this in
        LOGI OBOE_TAG "Stream opened: sampleRate=%d, channelCount=%d, framesPerBurst=%d"
          [ArgInt (OboePlayer_m_sampleRate this); ArgInt (getChannelCount stream);
           ArgInt (getFramesPerBurst stream)];;
        result ← requestStart stream;
        if negb (Result_is_OK result) then
          LOGE OBOE_TAG "Failed to start stream: %s" [ArgResultText result];;
          close stream;;
          let this := set_m_stream None this in
          mret (false, this)
        else
          let this := set_m_isRunning true this in
          LOGI OBOE_TAG "Audio stream started successfully" [];;
          mret (true, this)
    end.

Definition stop (this : OboePlayer) : M OboePlayer :=
  match m_stream this with
  | Some stream => requestStop stream;; close stream
  | None => mret tt
  end;;
  let this := set_m_stream None this in
  let this := set_m_isRunning false this in
  LOGI OBOE_TAG "Audio stream stopped" [];;
  mret this.

Inductive DataCallbackResult : Type := Continue | Stop.

(** [OboePlayer::onAudioReady]: the data callback of the stream.
    [audioData] is the stream's buffer, read as floats. *)
Definition onAudioReady (this : OboePlayer) (stream : ptr) (audioData : list float32)
    (numFrames : Z) : Trace -> option (DataCallbackResult * list float32 * Trace) :=
  fun w =>
    match render (m_engine this) audioData numFrames w with
    | Some (output, w) => Some (Continue, output, w)
    | None => None
    end.

Definition reopenStream (this : OboePlayer) : M OboePlayer :=
  LOGI OBOE_TAG "Attempting to reopen stream..." [];;
  this ← stop this;
  '(_, this) ← start this;
  mret this.

Definition onErrorAfterClose (this : OboePlayer) (stream : ptr) (error : Result)
    : M OboePlayer :=
  LOGE OBOE_TAG "Audio stream error: %s" [ArgResultText error];;
  (* Try to reopen stream *)
  if m_isRunning this then reopenStream this else mret this.

(** The lines [start] writes to the log. *)
Definition opened_line (this : OboePlayer) (stream : AudioStream) : Event :=
  Log ANDROID_LOG_INFO OBOE_TAG
    "Stream opened: sampleRate=%d, channelCount=%d, framesPerBurst=%d"
    [ArgInt (getSampleRate stream); ArgInt (getChannelCount stream);
     ArgInt (getFramesPerBurst stream)].

Definition started_line : Event :=
  Log ANDROID_LOG_INFO OBOE_TAG "Audio stream started successfully" [].

Definition open_failed_line (code : Z) : Event :=
  Log ANDROID_LOG_ERROR OBOE_TAG "Failed to open stream: %s" [ArgResultText (Error code)].

Definition start_failed_line (code : Z) : Event :=
  Log ANDROID_LOG_ERROR OBOE_TAG "Failed to start stream: %s" [ArgResultText (Error code)].

(** The stream [start] gets from Oboe when [openStream], called after [w],
    answers [OK] with the format [fmt]. *)
Definition opened_stream (this : OboePlayer) (w : Trace) (fmt : Negotiated) : AudioStream :=
  {| stream_addr := length w; stream_builder := start_builder this; stream_format := fmt |}.

(** The player once [start] has taken hold of [stream] and passed its
    sample rate on to the engine. *)
Definition with_stream (this : OboePlayer) (stream : AudioStream) : OboePlayer :=
  set_m_engine (set_m_sampleRate (getSampleRate stream) (m_engine this))
    (set_OboePlayer_m_sampleRate (getSampleRate stream)
       (set_m_stream (Some stream) this)).

(** The trace when [start] asks [stream] to run: the stream has been
    opened, the voices configured for its sample rate, and the line about
    it written. *)
Definition trace_at_requestStart (this : OboePlayer) (w : Trace) (stream : AudioStream)
    : Trace :=
  w ++ [OboeOpenStream (start_builder this) OK (Some stream)]
    ++ configuration_calls (m_engine this) (getSampleRate stream)
    ++ [opened_line this stream].

(** The calls [stop] makes to Oboe: none when the player holds no stream. *)
Definition stop_calls (this : OboePlayer) : list Event :=
  match m_stream this with
  | Some stream => [OboeRequestStop (stream_addr stream); OboeClose (stream_addr stream)]
  | None => []
  end.

(** The lines the error callback writes to the log. *)
Definition error_line (error : Result) : Event :=
  Log ANDROID_LOG_ERROR OBOE_TAG "Audio stream error: %s" [ArgResultText error].

Definition reopen_line : Event :=
  Log ANDROID_LOG_INFO OBOE_TAG "Attempting to reopen stream..." [].

(** A stream error as Oboe delivers it: it has closed the stream by the
    time it calls [onErrorAfterClose]. *)
Definition stream_error (this : OboePlayer) (stream : ptr) (error : Result) : M OboePlayer :=
  emit (OboeErrorClose stream error);;
  onErrorAfterClose this stream error.

(** What can happen to a player: a call of [start], a call of [stop], an
    error on a stream. *)
Inductive PlayerCall : Type :=
| CallStart
| CallStop
| StreamError (stream : ptr) (error : Result).

Definition call (c : PlayerCall) (this : OboePlayer) : M OboePlayer :=
  match c with
  | CallStart => '(_, this) ← start this; mret this
  | CallStop => stop this
  | StreamError stream error => stream_error this stream error
  end.

Fixpoint calls (cs : list PlayerCall) (this : OboePlayer) : M OboePlayer :=
  match cs with
  | [] => mret this
  | c :: cs' => this ← call c this; calls cs' this
  end.

(** The stream a player holds is the one stream that is open. *)
Definition holds_the_open_stream (this : OboePlayer) (w : Trace) : Prop :=
  open_streams w =
    match m_stream this with
    | Some stream => [stream_addr stream]
    | None => []
    end.

(** A running player holds a stream whose callbacks are the player itself
    and whose sample rate is the one the engine and the player have. *)
Definition running_on_stream (this : OboePlayer) : Prop :=
  m_isRunning this = true ->
  exists stream,
    m_stream this = Some stream
    /\ b_dataCallback (stream_builder stream) = Some (this_addr this)
    /\ b_errorCallback (stream_builder stream) = Some (this_addr this)
    /\ m_sampleRate (m_engine this) = getSampleRate stream
    /\ OboePlayer_m_sampleRate this = getSampleRate stream.

Definition player_invariant (w0 : Trace) (this : OboePlayer) (w : Trace) : Prop :=
  (exists events, w = w0 ++ events)
  /\ one_open_since w0 w
  /\ holds_the_open_stream this w
  /\ running_on_stream this
  /\ (m_isRunning this = false -> m_stream this = None).

(** [OboePlayer::~OboePlayer ()]: the body, then the members. *)
Definition OboePlayer_dtor (this : OboePlayer) : M unit :=
  this ← stop this;
  LOGI OBOE_TAG "OboePlayer destroyed" [];;
  SoundFontEngine_dtor (m_engine this).

Definition OboePlayer_getSampleRate (this : OboePlayer) : Z := OboePlayer_m_sampleRate this.

(** ** The JNI bridge *)

Definition NATIVE_TAG : string := "NativeAudio".

(** [g_player.reset ()] *)
Definition g_player_reset (g_player : option OboePlayer) : M (option OboePlayer) :=
  match g_player with
  | Some player => OboePlayer_dtor player;; mret None
  | None => mret None
  end.

(** [nativeInitialize].  [g_player] is the global; [assetManager] is what
    [AAssetManager_fromJava] returns and [soundFontPath] what
    [GetStringUTFChars] returns, null being [None].  Assigning the new
    player to [g_player] destroys the one it held. *)
Definition nativeInitialize (g_player : option OboePlayer)
    (assetManager : option AAssetManager) (soundFontPath : option string)
    : M (bool * option OboePlayer) :=
  LOGI NATIVE_TAG "Initializing native audio engine..." [];;
  match assetManager with
  | None =>
      LOGE NATIVE_TAG "Failed to get AssetManager" [];;
      mret (false, g_player)
  | Some mgr =>
      match soundFontPath with
      | None =>
          LOGE NATIVE_TAG "Failed to get SoundFont path" [];;
          mret (false, g_player)
      | Some sfPath =>
          (* Create player *)
          player ← OboePlayer_ctor;
          g_player_reset g_player;;
          (* Initialize SoundFont engine *)
          '(sfLoaded, engine) ← initialize_legacy (m_engine player) mgr sfPath;
          let player := set_m_engine engine player in
          if negb sfLoaded then
            LOGE NATIVE_TAG "Failed to load SoundFont" [];;
            g_player ← g_player_reset (Some player);
            mret (false, g_player)
          else
            (* Start audio stream *)
            '(started, player) ← start player;
            if negb started then
              LOGE NATIVE_TAG "Failed to start audio stream" [];;
              g_player ← g_player_reset (Some player);
              mret (false, g_player)
            else
              LOGI NATIVE_TAG "Native audio engine initialized successfully" [];;
              mret (true, Some player)
      end
  end.

Definition nativeNoteOn (g_player : option OboePlayer) (channel midiNote : Z)
    (velocity : float32) : M (option OboePlayer) :=
  match g_player with
  | Some player =>
      engine ← noteOn (m_engine player) channel midiNote velocity;
      mret (Some (set_m_engine engine player))
  | None => mret g_player
  end.

Definition nativeNoteOff (g_player : option OboePlayer) (channel midiNote : Z)
    : M (option OboePlayer) :=
  match g_player with
  | Some player =>
      engine ← noteOff (m_engine player) channel midiNote;
      mret (Some (set_m_engine engine player))
  | None => mret g_player
  end.

Definition nativePlayMetronome (g_player : option OboePlayer) (isAccented : bool)
    : M (option OboePlayer) :=
  match g_player with
  | Some player =>
      engine ← playMetronomeClick (m_engine player) isAccented;
      mret (Some (set_m_engine engine player))
  | None => mret g_player
  end.

Definition nativeSetPreset (g_player : option OboePlayer) (channel preset : Z)
    : M (option OboePlayer) :=
  match g_player with
  | Some player =>
      engine ← setPreset (m_engine player) channel preset;
      mret (Some (set_m_engine engine player))
  | None => mret g_player
  end.

Definition nativeIsReady (g_player : option OboePlayer) : bool :=
  match g_player with
  | Some player => isLoaded (m_engine player)
  | None => false
  end.

Definition nativeRelease (g_player : option OboePlayer) : M (option OboePlayer) :=
  LOGI NATIVE_TAG "Releasing native audio engine..." [];;
  g_player ← g_player_reset g_player;
  LOGI NATIVE_TAG "Native audio engine released" [];;
  mret g_player.

Definition nativeGetSampleRate (g_player : option OboePlayer) : Z :=
  match g_player with
  | Some player => OboePlayer_getSampleRate player
  | None => 44100
  end.

(** The global before any call: an empty [std::unique_ptr]. *)
Definition g_player_initial : option OboePlayer := None.

(** ** Whole runs of the bridge *)

(** The bytes and the length [loadSoundFont] gets from an asset, when it
    gets that far: the asset exists, has a buffer and a positive length. *)
Definition asset_data (mgr : AAssetManager) (path : string) : option (list byte * Z) :=
  match AAssetManager_open mgr path with
  | Some asset =>
      match AAsset_getBuffer asset with
      | Some bytes =>
          if AAsset_getLength asset <=? 0 then None else Some (bytes, AAsset_getLength asset)
      | None => None
      end
  | None => None
  end.

(** The asset is there and the synthesiser parses it. *)
Definition bank_loads (mgr : AAssetManager) (path : string) : bool :=
  match asset_data mgr path with
  | Some (bytes, dataSize) => tsf_load_memory_ok bytes (to_int dataSize)
  | None => false
  end.

(** The calls that close the banks an engine holds. *)
Definition close_calls (this : SoundFontEngine) : list Event :=
  match m_tsf this with
  | Some f => [TsfClose f]
  | None => []
  end ++
  match m_tsfMetronome this with
  | Some fm => [TsfClose fm]
  | None => []
  end.

(** The format [initialize] and [setSampleRate] configure a voice with. *)
Definition configured_for (sampleRate : Z) : option (TSFOutputMode * Z * float32) :=
  Some (TSF_STEREO_INTERLEAVED, sampleRate, f32_0_0).

(** What [initialize] adds to the trace once the click bank has been
    tried. *)
Definition click_bank_events (this : SoundFontEngine) (hm : option ptr) : list Event :=
  match hm with
  | Some fm =>
      [TsfSetOutput fm TSF_STEREO_INTERLEAVED (m_sampleRate this) f32_0_0;
       Log ANDROID_LOG_INFO SF_TAG "Metronome SoundFont loaded successfully" []]
  | None =>
      [Log ANDROID_LOG_ERROR SF_TAG
         "Failed to load metronome SoundFont, will use synthetic fallback" []]
  end ++
  [Log ANDROID_LOG_INFO SF_TAG
     "SoundFontEngine initialized with piano and metronome SoundFonts" []].

(** The calls [render] makes to the synthesiser: the instrument voice
    first, then the click voice. *)
Definition render_calls (this : SoundFontEngine) (numFrames : Z) : list Event :=
  match m_tsf this with
  | Some f => [TsfRenderFloat f numFrames 0]
  | None => []
  end ++
  match m_tsfMetronome this with
  | Some fm => [TsfRenderFloat fm numFrames 0]
  | None => []
  end.

(** The banks an engine holds. *)
Definition held_banks (this : SoundFontEngine) : list ptr :=
  match m_tsf this with
  | Some f => [f]
  | None => []
  end ++
  match m_tsfMetronome this with
  | Some fm => [fm]
  | None => []
  end.

(** The banks that are loaded are the banks the engine of the player
    holds, each once; without a player no bank is loaded. *)
Definition banks_invariant (g_player : option OboePlayer) (w : Trace) : Prop :=
  let held :=
    match g_player with
    | Some player => held_banks (m_engine player)
    | None => []
    end in
  loaded_banks w = held /\ NoDup held.

(** A computation that neither loads nor closes a bank. *)
Definition keeps_banks {A : Type} (c : M A) : Prop :=
  forall w, exists events,
    snd (c w) = w ++ events /\ List.filter is_bank_reload events = [].

(** The engine and the player as their constructors leave them. *)
Definition new_engine : SoundFontEngine :=
  {| m_tsf := None;
     m_tsfMetronome := None;
     m_assetManager := None;
     m_sampleRate := 44100;
     m_metronomeClick := false;
     m_metronomeAccented := false |}.

Definition new_player (addr : ptr) : OboePlayer :=
  {| this_addr := addr;
     m_stream := None;
     m_engine := new_engine;
     OboePlayer_m_sampleRate := 48000;
     m_channelCount := 2;
     m_isRunning := false |}.

(** What the destructor of a player adds to the trace: the stream is
    stopped and closed, then the banks are closed. *)
Definition dtor_events (this : OboePlayer) : list Event :=
  stop_calls this
  ++ [stopped_line; Log ANDROID_LOG_INFO OBOE_TAG "OboePlayer destroyed" []]
  ++ close_calls (m_engine this)
  ++ [Log ANDROID_LOG_INFO SF_TAG "SoundFontEngine destroyed" []].

(** From the end of [w0] on, [w] extends it and never has two streams
    open. *)
Definition one_open_from (w0 w : Trace) : Prop :=
  (exists events, w = w0 ++ events) /\ one_open_since w0 w.

(** What can happen to the bridge: one of the calls the host makes, or an
    error on a stream, which Oboe delivers to the player there is. *)
Inductive BridgeCall : Type :=
| NativeInitialize (assetManager : option AAssetManager) (soundFontPath : option string)
| NativeNoteOn (channel midiNote : Z) (velocity : float32)
| NativeNoteOff (channel midiNote : Z)
| NativePlayMetronome (isAccented : bool)
| NativeSetPreset (channel preset : Z)
| NativeRelease
| NativeStreamError (stream : ptr) (error : Result).

Definition bridge_call (c : BridgeCall) (g_player : option OboePlayer)
    : M (option OboePlayer) :=
  match c with
  | NativeInitialize assetManager soundFontPath =>
      '(_, g_player) ← nativeInitialize g_player assetManager soundFontPath;
      mret g_player
  | NativeNoteOn channel midiNote velocity => nativeNoteOn g_player channel midiNote velocity
  | NativeNoteOff channel midiNote => nativeNoteOff g_player channel midiNote
  | NativePlayMetronome isAccented => nativePlayMetronome g_player isAccented
  | NativeSetPreset channel preset => nativeSetPreset g_player channel preset
  | NativeRelease => nativeRelease g_player
  | NativeStreamError stream error =>
      match g_player with
      | Some player =>
          player ← stream_error player stream error;
          mret (Some player)
      | None => mret None
      end
  end.

Fixpoint bridge_calls (cs : list BridgeCall) (g_player : option OboePlayer)
    : M (option OboePlayer) :=
  match cs with
  | [] => mret g_player
  | c :: cs' => g_player ← bridge_call c g_player; bridge_calls cs' g_player
  end.

(** With a player, the invariant of the player and a loaded instrument
    voice; without one, no stream open. *)
Definition bridge_invariant (w0 : Trace) (g_player : option OboePlayer) (w : Trace) : Prop :=
  match g_player with
  | Some player => player_invariant w0 player w /\ isLoaded (m_engine player) = true
  | None => (exists events, w = w0 ++ events) /\ one_open_since w0 w /\ open_streams w = []
  end.

(** ** Engines and players to run the model on *)

(** An engine with both voices loaded, one with the instrument only, and one
    with neither. *)
Definition demo_engine : SoundFontEngine :=
  {| m_tsf := Some 3%nat;
     m_tsfMetronome := Some 5%nat;
     m_assetManager := None;
     m_sampleRate := 44100;
     m_metronomeClick := false;
     m_metronomeAccented := false |}.

Definition demo_engine_piano_only : SoundFontEngine := set_m_tsfMetronome None demo_engine.

Definition demo_engine_empty : SoundFontEngine := set_m_tsf None demo_engine_piano_only.

(** Six floats that are not zero. *)
Definition demo_buffer : list float32 := replicate 6 f32_0_8.

(** [2 ^ 31] floats that are not zero: room for [2 ^ 30] frames. *)
Definition demo_buffer_huge : list float32 := replicate (Z.to_nat (2 ^ 31)) f32_0_8.

(** A player that is not running; the same asking for one channel, and for
    a sample rate of zero. *)
Definition demo_player : OboePlayer :=
  {| this_addr := 0%nat;
     m_stream := None;
     m_engine := demo_engine;
     OboePlayer_m_sampleRate := 48000;
     m_channelCount := 2;
     m_isRunning := false |}.

Definition demo_player_mono : OboePlayer :=
  {| this_addr := 0%nat;
     m_stream := None;
     m_engine := demo_engine;
     OboePlayer_m_sampleRate := 48000;
     m_channelCount := 1;
     m_isRunning := false |}.

Definition demo_player_no_rate : OboePlayer :=
  set_OboePlayer_m_sampleRate 0 demo_player.

(** A player running on a stream. *)
Definition demo_stream : AudioStream :=
  {| stream_addr := 1%nat;
     stream_builder := start_builder demo_player;
     stream_format := {| n_sampleRate := 44100; n_channelCount := 2; n_framesPerBurst := 192 |} |}.

Definition demo_player_running : OboePlayer :=
  set_m_isRunning true
    (set_OboePlayer_m_sampleRate 44100 (set_m_stream (Some demo_stream) demo_player)).

(** The trace in which [demo_stream] was opened. *)
Definition demo_trace_running : Trace :=
  [Log ANDROID_LOG_INFO OBOE_TAG "OboePlayer created" [];
   OboeOpenStream (start_builder demo_player) OK (Some demo_stream)].

(** ** The float constants *)

(** [f32_1_0] is the float one, [f32_0_8] is eight divided by ten, rounded;
    the sum of two samples within the unit range can lie outside it. *)
Example f32_1_0_is_one : f32_of_Z 1 = f32_1_0.
Proof. reflexivity. Qed.

Example f32_0_8_is_eight_tenths : f32_div (f32_of_Z 8) (f32_of_Z 10) = f32_0_8.
Proof. reflexivity. Qed.

Example f32_add_exceeds_one : SFltb f32_1_0 (f32_add f32_1_0 f32_0_8) = true.
Proof. reflexivity. Qed.

(** ** Lemmas on traces *)

Lemma sounding_app (w l : Trace) (f : ptr) (p k : Z) :
  sounding (w ++ l) f p k = fold_left (sounding_step f p k) l (sounding w f p k).
Proof. unfold sounding. apply fold_left_app. Qed.

Lemma open_streams_app (w l : Trace) :
  open_streams (w ++ l) = fold_left open_step l (open_streams w).
Proof. unfold open_streams. apply fold_left_app. Qed.

Lemma tsf_output_app (w l : Trace) (f : ptr) :
  tsf_output (w ++ l) f = fold_left (output_step f) l (tsf_output w f).
Proof. unfold tsf_output. apply fold_left_app. Qed.

(** Running a method: unfold the monad and collect the events emitted. *)
Ltac run :=
  cbv [mbind M_bind mret M_ret emit LOGI LOGE
       tsf_close tsf_set_output tsf_note_on tsf_note_off tsf_render tsf_presetcount
       tsf_load_memory requestStart requestStop close];
  repeat rewrite <- app_assoc; cbn [app].

(** ** The click *)

(** C2.  When the click voice is loaded, [playMetronomeClick] issues a
    note-off for the normal pitch (77), a note-off for the accented pitch
    (76), and then a note-on for the selected pitch: 76 at velocity 1.0 when
    accented, 77 at velocity 0.8 otherwise; nothing else reaches the
    synthesiser.  Hence after an accented click immediately followed by a
    normal one the accented pitch is not sounding, and the normal one is. *)
Theorem playMetronomeClick_retriggers (this : SoundFontEngine) (fm : ptr) (w : Trace) :
  m_tsfMetronome this = Some fm ->
  (forall isAccented : bool,
     playMetronomeClick this isAccented w =
       (this,
        w ++ [TsfNoteOff fm 0 77;
              TsfNoteOff fm 0 76;
              TsfNoteOn fm 0 (if isAccented then 76 else 77)
                             (if isAccented then f32_1_0 else f32_0_8);
              Log ANDROID_LOG_INFO SF_TAG "Metronome click (SoundFont): note=%d, accented=%d"
                [ArgInt (if isAccented then 76 else 77); ArgInt (int_of_bool isAccented)]]))
  /\ (let '(this1, w1) := playMetronomeClick this true w in
      let '(this2, w2) := playMetronomeClick this1 false w1 in
      sounding w1 fm 0 METRONOME_NOTE_ACCENTED = true
      /\ sounding w2 fm 0 METRONOME_NOTE_ACCENTED = false
      /\ sounding w2 fm 0 METRONOME_NOTE_NORMAL = true).
Proof.
  intros Hfm.
  assert (Hcall : forall isAccented w0,
            playMetronomeClick this isAccented w0 =
              (this,
               w0 ++ [TsfNoteOff fm 0 77;
                      TsfNoteOff fm 0 76;
                      TsfNoteOn fm 0 (if isAccented then 76 else 77)
                                     (if isAccented then f32_1_0 else f32_0_8);
                      Log ANDROID_LOG_INFO SF_TAG
                        "Metronome click (SoundFont): note=%d, accented=%d"
                        [ArgInt (if isAccented then 76 else 77);
                         ArgInt (int_of_bool isAccented)]])).
  { intros b w0. unfold playMetronomeClick. rewrite Hfm. run.
    destruct b; reflexivity. }
  split; [intros b; apply Hcall |].
  rewrite (Hcall true w), (Hcall false).
  rewrite !sounding_app.
  cbn [fold_left sounding_step]. rewrite Nat.eqb_refl. cbn.
  auto.
Qed.

(** ** The sample rate *)

(** C7.  [setSampleRate r] stores [r] and configures each loaded voice for
    it.  A second call with the same [r] issues the same configuration calls
    as the first, and leaves the engine, and the output format every voice
    is configured with, as the first call left them. *)
Theorem setSampleRate_idempotent (this : SoundFontEngine) (sampleRate : Z) (w : Trace) :
  let calls :=
    match m_tsf this with
    | Some f => [TsfSetOutput f TSF_STEREO_INTERLEAVED sampleRate f32_0_0]
    | None => []
    end ++
    match m_tsfMetronome this with
    | Some fm => [TsfSetOutput fm TSF_STEREO_INTERLEAVED sampleRate f32_0_0]
    | None => []
    end in
  let '(this1, w1) := setSampleRate this sampleRate w in
  let '(this2, w2) := setSampleRate this1 sampleRate w1 in
  w1 = w ++ calls
  /\ w2 = w1 ++ calls
  /\ this2 = this1
  /\ m_sampleRate this1 = sampleRate
  /\ forall f, tsf_output w2 f = tsf_output w1 f.
Proof.
  destruct this as [t tm am sr c a].
  unfold setSampleRate, set_m_sampleRate; cbn [m_tsf m_tsfMetronome m_assetManager
    m_sampleRate m_metronomeClick m_metronomeAccented].
  destruct t as [f0|], tm as [fm|]; run; rewrite ?app_nil_r;
    (split; [reflexivity | split; [now rewrite <- ?app_assoc | split; [reflexivity | split; [reflexivity |]]]]);
    intros f; rewrite <- ?app_assoc, ?tsf_output_app; cbn [app fold_left output_step];
    repeat match goal with |- context [(?x =? f)%nat] => destruct (x =? f)%nat end;
    reflexivity.
Qed.

(** ** Notes and presets *)

(** C9.  [setPreset] writes one line to the log and changes nothing: the
    engine is as it was and the synthesiser is not called.  A [noteOn] that
    follows it, whatever the channel and whatever preset was asked for,
    plays the note on preset 0 of the instrument voice. *)
Theorem noteOn_ignores_preset (this : SoundFontEngine) (f : ptr)
    (presetChannel preset channel midiNote : Z) (velocity : float32) (w : Trace) :
  m_tsf this = Some f ->
  let '(this1, w1) := setPreset this presetChannel preset w in
  let '(this2, w2) := noteOn this1 channel midiNote velocity w1 in
  this1 = this
  /\ w1 = w ++ [Log ANDROID_LOG_INFO SF_TAG "Set preset: channel=%d, preset=%d"
                 [ArgInt presetChannel; ArgInt preset]]
  /\ this2 = this
  /\ w2 = w1 ++ [Log ANDROID_LOG_INFO SF_TAG "Note ON: channel=%d, note=%d, velocity=%.2f"
                  [ArgInt channel; ArgInt midiNote; ArgFloat velocity];
                TsfNoteOn f 0 midiNote velocity]
  /\ List.filter is_tsf_call w2 = List.filter is_tsf_call w ++ [TsfNoteOn f 0 midiNote velocity].
Proof.
  intros Hf. unfold setPreset, noteOn. run. rewrite Hf. run.
  repeat split; try reflexivity.
  rewrite List.filter_app. reflexivity.
Qed.

(** ** Stopping *)

(** C8.  [stop] asks the stream it holds, if any, to halt and closes it; in
    every case the player is left not running and without a stream.  A
    second [stop] finds it so and leaves it so: it makes no call to Oboe,
    the open streams are the same, and only the line of the log is written
    again. *)
Theorem stop_idempotent (this : OboePlayer) (w : Trace) :
  let '(this1, w1) := stop this w in
  w1 = w ++ match m_stream this with
            | Some stream => [OboeRequestStop (stream_addr stream); OboeClose (stream_addr stream)]
            | None => []
            end ++ [stopped_line]
  /\ m_stream this1 = None
  /\ m_isRunning this1 = false
  /\ forall w', let '(this2, w2) := stop this1 w' in
                this2 = this1
                /\ w2 = w' ++ [stopped_line]
                /\ open_streams w2 = open_streams w'.
Proof.
  unfold stop. destruct (m_stream this) as [stream|] eqn:Hs; run;
    (split; [reflexivity | split; [reflexivity | split; [reflexivity |]]]);
    intros w'; cbn [m_stream set_m_isRunning set_m_stream];
    rewrite open_streams_app; repeat split; destruct this; reflexivity.
Qed.

(** ** The bridge without a player *)

(** C10.  The global is empty before the first call, after [nativeRelease],
    and after a [nativeInitialize] that fails when it was empty.  While it
    is empty, [nativeNoteOn], [nativeNoteOff], [nativePlayMetronome] and
    [nativeSetPreset] do nothing at all, [nativeIsReady] is false and
    [nativeGetSampleRate] is 44100: each of them returns without touching a
    player. *)
Theorem bridge_without_player (w : Trace) :
  g_player_initial = None
  /\ (forall g, fst (nativeRelease g w) = None)
  /\ (forall mgr path, fst (fst (nativeInitialize None mgr path w)) = false ->
                       snd (fst (nativeInitialize None mgr path w)) = None)
  /\ (forall channel midiNote velocity,
        nativeNoteOn None channel midiNote velocity w = (None, w))
  /\ (forall channel midiNote, nativeNoteOff None channel midiNote w = (None, w))
  /\ (forall isAccented, nativePlayMetronome None isAccented w = (None, w))
  /\ (forall channel preset, nativeSetPreset None channel preset w = (None, w))
  /\ nativeIsReady None = false
  /\ nativeGetSampleRate None = 44100.
Proof.
  split; [reflexivity |].
  split.
  { intros g. unfold nativeRelease, g_player_reset. run.
    destruct g as [p|]; run.
    - destruct (OboePlayer_dtor p _) as [[] w']. reflexivity.
    - reflexivity. }
  split.
  { intros mgr path. unfold nativeInitialize, g_player_reset. run.
    destruct mgr as [mgr|]; [| reflexivity].
    destruct path as [path|]; [| reflexivity].
    destruct (OboePlayer_ctor _) as [player w1].
    destruct (initialize_legacy _ _ _ _) as [[sfLoaded engine] w2].
    destruct sfLoaded; cbn [negb].
    - destruct (start _ _) as [[started player'] w3].
      destruct started; cbn [negb].
      + cbn. discriminate.
      + destruct (OboePlayer_dtor _ _) as [[] w4]. reflexivity.
    - destruct (OboePlayer_dtor _ _) as [[] w3]. reflexivity. }
  repeat split; reflexivity.
Qed.

(** ** Rendering *)

(** The mixing loop, started at [i] with [n] iterations to go on buffers
    that are long enough, adds the [n] samples from [i] on and leaves the
    rest of [output] alone. *)
Lemma mix_loop_spec (metronomeBuffer : list float32) (n : nat) :
  forall (i : nat) (output : list float32),
    (i + n <= length output)%nat ->
    (i + n <= length metronomeBuffer)%nat ->
    mix_loop n i output metronomeBuffer =
      Some (take i output
            ++ zip_with f32_add (take n (drop i output)) (take n (drop i metronomeBuffer))
            ++ drop (i + n) output).
Proof.
  induction n as [|n IH]; intros i output Ho Hm.
  - cbn [mix_loop]. rewrite !take_0, Nat.add_0_r. cbn [zip_with app].
    rewrite take_drop. reflexivity.
  - cbn [mix_loop].
    destruct (lookup_lt_is_Some_2 output i ltac:(lia)) as [o Hoi].
    destruct (lookup_lt_is_Some_2 metronomeBuffer i ltac:(lia)) as [m Hmi].
    rewrite Hoi, Hmi.
    rewrite IH by (rewrite ?length_insert; lia).
    rewrite (take_S_r _ i (f32_add o m)) by (apply list_lookup_insert_eq; lia).
    rewrite take_insert_ge by lia.
    rewrite !drop_insert_lt by lia.
    rewrite (drop_S output o i Hoi), (drop_S metronomeBuffer m i Hmi).
    rewrite !firstn_cons. cbn [zip_with].
    rewrite <- app_assoc. cbn [app].
    replace (S i + n)%nat with (i + S n)%nat by lia.
    reflexivity.
Qed.

(** A product within the range of [int] is the exact one. *)
Lemma int_mul_exact (a b : Z) :
  INT_MIN <= a * b <= INT_MAX -> int_mul a b = Some (a * b).
Proof.
  intros [Hmin Hmax]. unfold int_mul. cbn zeta.
  apply Z.leb_le in Hmin. apply Z.leb_le in Hmax. rewrite Hmin, Hmax. reflexivity.
Qed.

(** A product beyond [INT_MAX] overflows. *)
Lemma int_mul_overflow (a b : Z) :
  INT_MAX < a * b -> int_mul a b = None.
Proof.
  intros Hmax. unfold int_mul. cbn zeta.
  apply Z.leb_gt in Hmax. rewrite Hmax, andb_false_r. reflexivity.
Qed.

(** C1, with the bound that keeps [numFrames * 2] an [int].  For
    [numFrames > 0] with [numFrames * 2 <= INT_MAX], that is
    [numFrames < 2 ^ 30], and an output buffer of at least [numFrames * 2]
    floats, [render] first sets the first [numFrames * 2] floats to zero;
    the instrument voice, if loaded, then renders [numFrames] frames
    straight into the output; the click voice, if loaded, renders
    [numFrames] frames into a scratch buffer of [numFrames * 2] zeros, and
    each of its [numFrames * 2] samples is added to the sample of the output
    at the same index by a plain float addition, whatever the magnitude of
    the sum.  With neither voice loaded the [numFrames * 2] floats are all
    zero and the synthesiser is not called.  From [2 ^ 30] frames on the
    product overflows and nothing is promised, whatever the buffer. *)
Theorem render_mixes (this : SoundFontEngine) (output : list float32) (numFrames : Z)
    (w : Trace) :
  renders_in_place ->
  0 < numFrames ->
  numFrames * 2 <= INT_MAX ->
  numFrames * 2 <= Z.of_nat (length output) ->
  let n := Z.to_nat (numFrames * 2) in
  let zeroed := replicate n f32_0_0 ++ drop n output in
  let direct :=
    match m_tsf this with
    | Some f => tsf_render_float w f zeroed numFrames 0
    | None => zeroed
    end in
  let w1 :=
    match m_tsf this with
    | Some f => w ++ [TsfRenderFloat f numFrames 0]
    | None => w
    end in
  render this output numFrames w =
    Some match m_tsfMetronome this with
         | Some fm =>
             let scratch := tsf_render_float w1 fm (replicate n f32_0_0) numFrames 0 in
             (zip_with f32_add (take n direct) scratch ++ drop n direct,
              w1 ++ [TsfRenderFloat fm numFrames 0])
         | None => (direct, w1)
         end
  /\ (m_tsf this = None -> m_tsfMetronome this = None ->
      render this output numFrames w = Some (replicate n f32_0_0 ++ drop n output, w)).
Proof.
  intros Hplace Hpos Hint Hcap n zeroed direct w1.
  assert (Hn : (n <= length output)%nat) by (subst n; lia).
  assert (Hzeroed : length zeroed = length output).
  { subst zeroed. rewrite length_app, length_replicate, length_drop. lia. }
  assert (Hdirect : length direct = length output).
  { subst direct. destruct (m_tsf this); [rewrite Hplace |]; exact Hzeroed. }
  assert (Hrender : render this output numFrames w =
    Some match m_tsfMetronome this with
         | Some fm =>
             let scratch := tsf_render_float w1 fm (replicate n f32_0_0) numFrames 0 in
             (zip_with f32_add (take n direct) scratch ++ drop n direct,
              w1 ++ [TsfRenderFloat fm numFrames 0])
         | None => (direct, w1)
         end).
  { unfold render.
    rewrite int_mul_exact by (unfold INT_MIN; split; [lia | exact Hint]).
    unfold memset_zero.
    replace ((0 <=? numFrames * 2) && (numFrames * 2 <=? Z.of_nat (length output)))
      with true by (symmetry; apply andb_true_iff; split; apply Z.leb_le; lia).
    fold n. fold zeroed. subst direct w1.
    destruct (m_tsf this) as [f|], (m_tsfMetronome this) as [fm|];
      unfold tsf_render; cbn zeta; try reflexivity.
    - rewrite mix_loop_spec by (rewrite ?Hplace, ?length_replicate; lia).
      rewrite take_0, !drop_0. cbn [app].
      rewrite (take_ge (tsf_render_float _ fm _ _ _)) by (rewrite Hplace, length_replicate; lia).
      reflexivity.
    - rewrite mix_loop_spec by (rewrite ?Hplace, ?length_replicate; lia).
      rewrite take_0, !drop_0. cbn [app].
      rewrite (take_ge (tsf_render_float _ fm _ _ _)) by (rewrite Hplace, length_replicate; lia).
      reflexivity. }
  split; [exact Hrender |].
  intros Ht Htm. rewrite Hrender. subst direct w1 zeroed. rewrite Ht, Htm. reflexivity.
Qed.

(** ** Loading the banks *)

(** C3.  When the instrument bank does not load, [initialize] returns
    false and the engine is left with neither voice.  When the instrument
    bank loads and the click bank does not, [initialize] returns true, the
    instrument voice is loaded (so that the bridge reports ready for a
    player with this engine), the click voice is not, and a click then
    writes an error line to the log and reaches no voice. *)
Theorem initialize_outcomes (this : SoundFontEngine) (mgr : AAssetManager)
    (pianoSfPath metronomeSfPath : string) (w : Trace) :
  ((forall w0, fst (loadSoundFont mgr pianoSfPath w0) = None) ->
   let '(ok, this', w') := initialize this mgr pianoSfPath metronomeSfPath w in
   ok = false /\ m_tsf this' = None /\ m_tsfMetronome this' = None)
  /\ ((forall w0, is_Some (fst (loadSoundFont mgr pianoSfPath w0))) ->
      (forall w0, fst (loadSoundFont mgr metronomeSfPath w0) = None) ->
      let '(ok, this', w') := initialize this mgr pianoSfPath metronomeSfPath w in
      ok = true
      /\ isLoaded this' = true
      /\ (forall player, nativeIsReady (Some (set_m_engine this' player)) = true)
      /\ isMetronomeLoaded this' = false
      /\ m_tsfMetronome this' = None
      /\ forall isAccented w1,
           playMetronomeClick this' isAccented w1 =
             (this', w1 ++ [Log ANDROID_LOG_ERROR SF_TAG "Metronome SoundFont not loaded!" []])).
Proof.
  split.
  - intros Hpiano. unfold initialize. run.
    destruct (close_if_loaded _ w) as [h1 w1].
    destruct (close_if_loaded _ w1) as [h2 w2] eqn:E2.
    assert (h2 = None) as ->.
    { revert E2. unfold close_if_loaded. run.
      destruct (m_tsfMetronome _); intros [= <- _]; reflexivity. }
    specialize (Hpiano w2).
    destruct (loadSoundFont mgr pianoSfPath w2) as [h3 w3].
    cbn in Hpiano. subst h3. cbn. auto.
  - intros Hpiano Hclick. unfold initialize. run.
    destruct (close_if_loaded _ w) as [h1 w1].
    destruct (close_if_loaded _ w1) as [h2 w2].
    specialize (Hpiano w2).
    destruct (loadSoundFont mgr pianoSfPath w2) as [h3 w3].
    destruct Hpiano as [f Hf]. cbn in Hf. subst h3.
    cbn [m_tsf set_m_tsf set_m_tsfMetronome].
    match goal with |- context [loadSoundFont mgr metronomeSfPath ?w4] =>
      specialize (Hclick w4); destruct (loadSoundFont mgr metronomeSfPath w4) as [h5 w5]
    end.
    cbn in Hclick. subst h5. cbn.
    repeat split.
Qed.

(** ** Starting *)

Lemma setSampleRate_eq (this : SoundFontEngine) (sampleRate : Z) (w : Trace) :
  setSampleRate this sampleRate w =
    (set_m_sampleRate sampleRate this, w ++ configuration_calls this sampleRate).
Proof.
  unfold setSampleRate, configuration_calls.
  cbn [m_tsf m_tsfMetronome set_m_sampleRate].
  destruct (m_tsf this), (m_tsfMetronome this); run; rewrite ?app_nil_r; reflexivity.
Qed.

(** [start], statement by statement, on a player that is not running. *)
Lemma start_eq (this : OboePlayer) (w : Trace) :
  m_isRunning this = false ->
  start this w =
    match oboe_openStream w (start_builder this) with
    | (Error code, _) =>
        (false, set_m_stream None this,
         w ++ [OboeOpenStream (start_builder this) (Error code) None; open_failed_line code])
    | (OK, fmt) =>
        let stream := opened_stream this w fmt in
        let w_req := trace_at_requestStart this w stream in
        match oboe_requestStart w_req stream with
        | OK =>
            (true, set_m_isRunning true (with_stream this stream),
             w_req ++ [OboeRequestStart (stream_addr stream) OK; started_line])
        | Error code =>
            (false, set_m_stream None (with_stream this stream),
             w_req ++ [OboeRequestStart (stream_addr stream) (Error code);
                       start_failed_line code;
                       OboeClose (stream_addr stream)])
        end
    end.
Proof.
  intros Hrun. unfold start. rewrite Hrun.
  unfold openStream. cbv [mbind M_bind].
  destruct (oboe_openStream w (start_builder this)) as [[|code] fmt].
  - fold (opened_stream this w fmt).
    set (stream := opened_stream this w fmt).
    cbn [m_engine set_OboePlayer_m_sampleRate set_m_stream OboePlayer_m_sampleRate].
    rewrite setSampleRate_eq.
    unfold requestStart. run.
    unfold trace_at_requestStart, opened_line. cbn [app].
    destruct (oboe_requestStart _ stream) as [|code]; cbn [negb Result_is_OK];
      unfold with_stream;
      cbn [OboePlayer_m_sampleRate set_m_engine set_OboePlayer_m_sampleRate set_m_stream];
      repeat (rewrite <- app_assoc || rewrite <- app_comm_cons); cbn [app];
      reflexivity.
  - run. reflexivity.
Qed.

(** C5.  [start] on a running player returns true and does nothing.  On a
    player that is not running: when [openStream] fails, [start] returns
    false, the player is still not running and holds no stream; when it
    succeeds, the sample rate of the new stream is stored in the player and
    handed to the engine by [setSampleRate], all of it before the stream is
    asked to run; when that request fails, the stream is closed, the player
    lets go of it, [start] returns false and the player is not running;
    when it succeeds, [start] returns true and the player is running on the
    new stream. *)
Theorem start_outcomes (this : OboePlayer) (w : Trace) :
  (m_isRunning this = true -> start this w = (true, this, w))
  /\ (m_isRunning this = false ->
      forall code fmt,
        oboe_openStream w (start_builder this) = (Error code, fmt) ->
        let '(ok, this', w') := start this w in
        ok = false
        /\ m_isRunning this' = false
        /\ m_stream this' = None
        /\ m_engine this' = m_engine this
        /\ w' = w ++ [OboeOpenStream (start_builder this) (Error code) None;
                     open_failed_line code])
  /\ (m_isRunning this = false ->
      forall fmt,
        oboe_openStream w (start_builder this) = (OK, fmt) ->
        let stream := opened_stream this w fmt in
        let w_open := w ++ [OboeOpenStream (start_builder this) OK (Some stream)] in
        let '(engine, w_cfg) := setSampleRate (m_engine this) (n_sampleRate fmt) w_open in
        let w_req := w_cfg ++ [opened_line this stream] in
        let result := oboe_requestStart w_req stream in
        let '(ok, this', w') := start this w in
        OboePlayer_m_sampleRate this' = n_sampleRate fmt
        /\ m_engine this' = engine
        /\ m_sampleRate (m_engine this') = n_sampleRate fmt
        /\ match result with
           | OK =>
               ok = true
               /\ m_isRunning this' = true
               /\ m_stream this' = Some stream
               /\ w' = w_req ++ [OboeRequestStart (stream_addr stream) OK; started_line]
           | Error code =>
               ok = false
               /\ m_isRunning this' = false
               /\ m_stream this' = None
               /\ w' = w_req ++ [OboeRequestStart (stream_addr stream) (Error code);
                                 start_failed_line code;
                                 OboeClose (stream_addr stream)]
               /\ ~ In (stream_addr stream) (open_streams w')
           end).
Proof.
  split; [| split].
  - intros Hrun. unfold start. rewrite Hrun. reflexivity.
  - intros Hrun code fmt Hopen. rewrite (start_eq this w Hrun), Hopen.
    cbn [m_isRunning m_stream m_engine set_m_stream]. auto.
  - intros Hrun fmt Hopen stream w_open.
    rewrite setSampleRate_eq. intros w_req result.
    rewrite (start_eq this w Hrun), Hopen. cbv zeta. fold stream.
    assert (Hreq : trace_at_requestStart this w stream = w_req).
    { unfold trace_at_requestStart. subst w_req w_open.
      repeat (rewrite <- app_assoc || rewrite <- app_comm_cons). reflexivity. }
    rewrite Hreq. fold result.
    destruct result as [|code]; unfold with_stream;
      cbn [m_isRunning m_stream m_engine OboePlayer_m_sampleRate m_sampleRate
           set_m_isRunning set_m_stream set_m_engine set_OboePlayer_m_sampleRate
           set_m_sampleRate];
      repeat split; try reflexivity; try exact Hrun.
    rewrite open_streams_app. unfold start_failed_line. cbn [fold_left open_step].
    intros Hin. apply filter_In in Hin. destruct Hin as [_ Hne].
    rewrite Nat.eqb_refl in Hne. discriminate.
Qed.

(** ** Recovery from a stream error *)

Lemma stop_eq (this : OboePlayer) (w : Trace) :
  stop this w =
    (set_m_isRunning false (set_m_stream None this), w ++ stop_calls this ++ [stopped_line]).
Proof.
  unfold stop, stop_calls. destruct (m_stream this); run; reflexivity.
Qed.

(** What a [start] that gets past its first test leaves in the trace, and
    how its result shows there. *)
Lemma start_events (this : OboePlayer) (w : Trace) :
  m_isRunning this = false ->
  exists events,
    snd (start this w) = w ++ events
    /\ length (List.filter is_open_attempt events) = 1%nat
    /\ List.filter is_stopped_line events = []
    /\ List.filter is_bank_reload events = []
    /\ m_tsf (m_engine (snd (fst (start this w)))) = m_tsf (m_engine this)
    /\ m_tsfMetronome (m_engine (snd (fst (start this w)))) = m_tsfMetronome (m_engine this)
    /\ (fst (fst (start this w)) = true ->
        m_isRunning (snd (fst (start this w))) = true
        /\ List.filter is_error_log events = [])
    /\ (fst (fst (start this w)) = false ->
        m_isRunning (snd (fst (start this w))) = false
        /\ m_stream (snd (fst (start this w))) = None
        /\ exists line, List.filter is_error_log events = [line]).
Proof.
  intros Hrun. rewrite (start_eq this w Hrun).
  destruct (oboe_openStream w (start_builder this)) as [[|code] fmt].
  - cbv zeta. set (stream := opened_stream this w fmt).
    unfold trace_at_requestStart.
    destruct (oboe_requestStart _ stream) as [|code]; cbn [fst snd];
      rewrite <- !app_assoc;
      eexists; (split; [reflexivity |]);
      unfold configuration_calls;
      destruct (m_tsf (m_engine this)) eqn:Et, (m_tsfMetronome (m_engine this)) eqn:Etm;
      cbn; rewrite ?Et, ?Etm; repeat split; try discriminate; try assumption; eauto.
  - cbn [fst snd]. eexists; split; [reflexivity |].
    cbn. repeat split; try discriminate; try assumption; eauto.
Qed.

(** C4.  When a stream error is delivered to a player that is not running,
    it is written to the log and nothing else happens.  When the player is
    running, the callback is one [stop] followed by one [start]: one stop
    line and one attempt to open a stream are in the trace, in this order,
    and no bank is closed or loaded.  If that [start] succeeds the player is
    running again, with the voice handles it had; if it fails, the player is
    not running, holds no stream, and the failure is one more error line in
    the log. *)
Theorem onErrorAfterClose_recovers (this : OboePlayer) (stream : ptr) (error : Result)
    (w : Trace) :
  (m_isRunning this = false ->
   onErrorAfterClose this stream error w = (this, w ++ [error_line error]))
  /\ (m_isRunning this = true ->
      let '(stopped, w_stop) := stop this (w ++ [error_line error; reopen_line]) in
      let '(ok, this', w') := start stopped w_stop in
      onErrorAfterClose this stream error w = (this', w')
      /\ (exists stop_events start_events,
            w_stop = (w ++ [error_line error; reopen_line]) ++ stop_events
            /\ w' = w_stop ++ start_events
            /\ length (List.filter is_stopped_line (stop_events ++ start_events)) = 1%nat
            /\ length (List.filter is_open_attempt (stop_events ++ start_events)) = 1%nat
            /\ List.filter is_open_attempt stop_events = []
            /\ List.filter is_stopped_line start_events = []
            /\ List.filter is_bank_reload (stop_events ++ start_events) = []
            /\ (ok = true -> List.filter is_error_log start_events = [])
            /\ (ok = false -> exists line, List.filter is_error_log start_events = [line]))
      /\ m_tsf (m_engine this') = m_tsf (m_engine this)
      /\ m_tsfMetronome (m_engine this') = m_tsfMetronome (m_engine this)
      /\ (ok = true -> m_isRunning this' = true)
      /\ (ok = false -> m_isRunning this' = false /\ m_stream this' = None)).
Proof.
  split.
  - intros Hrun. unfold onErrorAfterClose. rewrite Hrun. run. reflexivity.
  - intros Hrun. rewrite stop_eq.
    set (stopped := set_m_isRunning false (set_m_stream None this)).
    set (w_stop := (w ++ [error_line error; reopen_line]) ++ stop_calls this ++ [stopped_line]).
    assert (Hstopped : m_isRunning stopped = false) by reflexivity.
    destruct (start_events stopped w_stop Hstopped)
      as (start_evs & Hw' & Hopen & Hnostop & Hnoreload & Ht & Htm & Hok & Hfail).
    destruct (start stopped w_stop) as [[ok this'] w'] eqn:Hstart.
    cbn [fst snd] in *.
    split; [| split; [| split; [| split; [| split]]]].
    + unfold onErrorAfterClose, reopenStream. rewrite Hrun. run.
      rewrite stop_eq. fold stopped.
      change (start stopped _) with (start stopped w_stop).
      rewrite Hstart. reflexivity.
    + exists (stop_calls this ++ [stopped_line]), start_evs.
      split; [reflexivity |]. split; [exact Hw' |].
      rewrite !List.filter_app, !length_app, Hnostop, Hopen, Hnoreload.
      unfold stop_calls. destruct (m_stream this); cbn;
        repeat split; try reflexivity; intros Hk; [apply Hok | apply Hfail | apply Hok | apply Hfail];
        exact Hk.
    + exact Ht.
    + exact Htm.
    + intros Hk. apply Hok, Hk.
    + intros Hk. destruct (Hfail Hk) as (? & ? & _). auto.
Qed.

(** ** The stream a running player holds *)

Lemma one_open_along_app (l1 l2 : list Event) :
  forall o, one_open_along o (l1 ++ l2) <->
            one_open_along o l1 /\ one_open_along (fold_left open_step l1 o) l2.
Proof.
  induction l1 as [|e l1 IH]; intros o; cbn [app one_open_along fold_left].
  - tauto.
  - rewrite IH. tauto.
Qed.

Lemma one_open_along_prefix (l : list Event) :
  forall o l1 l2,
    (length o <= 1)%nat -> one_open_along o l -> l = l1 ++ l2 ->
    (length (fold_left open_step l1 o) <= 1)%nat.
Proof.
  induction l as [|e l IH]; intros o l1 l2 Ho Hal Heq.
  - symmetry in Heq. apply app_eq_nil in Heq. destruct Heq as [-> _]. exact Ho.
  - destruct l1 as [|e1 l1]; [exact Ho |].
    cbn [app] in Heq. injection Heq as <- ->.
    cbn [one_open_along] in Hal. destruct Hal as [He Hal].
    cbn [fold_left]. eapply IH; eauto.
Qed.

Lemma one_open_since_app (w0 a events : Trace) :
  one_open_since w0 (w0 ++ a) ->
  one_open_along (open_streams (w0 ++ a)) events ->
  one_open_since w0 (w0 ++ a ++ events).
Proof.
  intros Hsince Hal w1 w2 Heq.
  apply app_inv_head in Heq.
  assert (Ha : (length (open_streams (w0 ++ a)) <= 1)%nat).
  { apply (Hsince a []). rewrite app_nil_r. reflexivity. }
  apply app_eq_app in Heq. destruct Heq as [k [[-> ->] | [-> ->]]].
  - apply (Hsince w1 k). reflexivity.
  - rewrite app_assoc, open_streams_app.
    eapply one_open_along_prefix; eauto.
Qed.

Lemma invariant_extend (w0 : Trace) (this this' : OboePlayer) (w events : Trace) :
  player_invariant w0 this w ->
  one_open_along (open_streams w) events ->
  fold_left open_step events (open_streams w) =
    match m_stream this' with
    | Some stream => [stream_addr stream]
    | None => []
    end ->
  running_on_stream this' ->
  (m_isRunning this' = false -> m_stream this' = None) ->
  player_invariant w0 this' (w ++ events).
Proof.
  intros ([a ->] & Hsince & _ & _ & _) Hal Hopen Hrun Hstop.
  unfold player_invariant, holds_the_open_stream.
  rewrite open_streams_app, <- app_assoc.
  split; [eauto |]. split; [apply one_open_since_app; assumption |]. auto.
Qed.

Lemma configuration_calls_open (this : SoundFontEngine) (sampleRate : Z) (o : list ptr) :
  fold_left open_step (configuration_calls this sampleRate) o = o.
Proof.
  unfold configuration_calls. destruct (m_tsf this), (m_tsfMetronome this); reflexivity.
Qed.

Lemma configuration_calls_along (this : SoundFontEngine) (sampleRate : Z) (o : list ptr) :
  (length o <= 1)%nat -> one_open_along o (configuration_calls this sampleRate).
Proof.
  intros Ho. unfold configuration_calls.
  destruct (m_tsf this), (m_tsfMetronome this); cbn; auto.
Qed.

(** A [start] that finds no stream open opens at most one, and leaves the
    player running on it or not running and without it. *)
Lemma start_steps (this : OboePlayer) (w : Trace) :
  m_isRunning this = false ->
  exists events,
    snd (start this w) = w ++ events
    /\ one_open_along [] events
    /\ fold_left open_step events [] =
         match m_stream (snd (fst (start this w))) with
         | Some stream => [stream_addr stream]
         | None => []
         end
    /\ running_on_stream (snd (fst (start this w)))
    /\ (m_isRunning (snd (fst (start this w))) = false ->
        m_stream (snd (fst (start this w))) = None).
Proof.
  intros Hrun. rewrite (start_eq this w Hrun). unfold running_on_stream.
  destruct (oboe_openStream w (start_builder this)) as [[|code] fmt].
  - cbv zeta. set (stream := opened_stream this w fmt).
    unfold trace_at_requestStart.
    destruct (oboe_requestStart _ stream) as [|code]; cbn [fst snd];
      rewrite <- !app_assoc;
      eexists; (split; [reflexivity |]);
      rewrite !one_open_along_app, !fold_left_app, !configuration_calls_open;
      cbn [fold_left open_step one_open_along opened_line started_line start_failed_line
           length List.filter app];
      rewrite ?Nat.eqb_refl; cbn [negb];
      (split; [repeat split; auto using configuration_calls_along |]).
    + cbn. split; [reflexivity |]. split; [| discriminate].
      intros _. exists stream. repeat split.
    + cbn. split; [reflexivity |]. split; [| reflexivity].
      rewrite Hrun. discriminate.
  - cbn [fst snd]. eexists; split; [reflexivity |].
    cbn. rewrite Hrun. repeat split; auto; discriminate.
Qed.

Lemma call_invariant (w0 : Trace) (c : PlayerCall) (this : OboePlayer) (w : Trace) :
  player_invariant w0 this w ->
  player_invariant w0 (fst (call c this w)) (snd (call c this w)).
Proof.
  intros Hinv.
  pose proof Hinv as (_ & _ & Hholds & Hrunning & Hstopped).
  unfold holds_the_open_stream in Hholds.
  destruct c as [| | stream error]; cbn [call].
  - (* start *)
    cbv [mbind M_bind mret M_ret].
    destruct (m_isRunning this) eqn:Hrun.
    + unfold start. rewrite Hrun. exact Hinv.
    + rewrite (Hstopped eq_refl) in Hholds.
      destruct (start_steps this w Hrun) as (events & Hw & Hal & Hopen & Hr & Hs).
      destruct (start this w) as [[ok this'] w']. cbn [fst snd] in *. subst w'.
      apply (invariant_extend w0 this); rewrite ?Hholds; assumption.
  - (* stop *)
    rewrite stop_eq. cbn [fst snd].
    apply (invariant_extend w0 this); try assumption; try discriminate.
    + rewrite Hholds. unfold stop_calls.
      destruct (m_stream this); cbn; rewrite ?Nat.eqb_refl; cbn; auto.
    + rewrite Hholds. unfold stop_calls.
      destruct (m_stream this); cbn; rewrite ?Nat.eqb_refl; reflexivity.
    + reflexivity.
  - (* an error on a stream *)
    unfold stream_error, onErrorAfterClose, reopenStream. run.
    destruct (m_isRunning this) eqn:Hrun.
    + destruct (Hrunning Hrun) as (cur & Hcur & _).
      rewrite Hcur in Hholds.
      rewrite stop_eq. run.
      set (stopped := set_m_isRunning false (set_m_stream None this)).
      set (events1 := OboeErrorClose stream error
                        :: Log ANDROID_LOG_ERROR OBOE_TAG "Audio stream error: %s"
                             [ArgResultText error]
                        :: Log ANDROID_LOG_INFO OBOE_TAG "Attempting to reopen stream..." []
                        :: stop_calls this ++ [stopped_line]).
      assert (Hal1 : one_open_along (open_streams w) events1).
      { subst events1. rewrite Hholds. unfold stop_calls. rewrite Hcur.
        cbn. destruct (stream_addr cur =? stream)%nat; cbn;
          rewrite ?Nat.eqb_refl; cbn; auto 10. }
      assert (Hopen1 : fold_left open_step events1 (open_streams w) = []).
      { subst events1. rewrite Hholds. unfold stop_calls. rewrite Hcur.
        cbn. destruct (stream_addr cur =? stream)%nat; cbn;
          rewrite ?Nat.eqb_refl; reflexivity. }
      assert (Hmid : player_invariant w0 stopped (w ++ events1)).
      { apply (invariant_extend w0 this); try assumption; try discriminate. reflexivity. }
      destruct (start_steps stopped (w ++ events1) eq_refl)
        as (events & Hw & Hal & Hopen & Hr & Hs).
      destruct (start stopped (w ++ events1)) as [[ok this'] w']. cbn [fst snd] in *.
      subst w'.
      apply (invariant_extend w0 stopped); try assumption.
      * rewrite open_streams_app, Hopen1. exact Hal.
      * rewrite open_streams_app, Hopen1. exact Hopen.
    + cbn [fst snd]. rewrite (Hstopped eq_refl) in Hholds.
      apply (invariant_extend w0 this); try assumption.
      * rewrite Hholds. cbn. auto.
      * rewrite Hholds, (Hstopped eq_refl). reflexivity.
      * intros _. exact (Hstopped eq_refl).
Qed.

Lemma calls_invariant (w0 : Trace) (cs : list PlayerCall) :
  forall (this : OboePlayer) (w : Trace),
    player_invariant w0 this w ->
    player_invariant w0 (fst (calls cs this w)) (snd (calls cs this w)).
Proof.
  induction cs as [|c cs IH]; intros this w Hinv.
  - exact Hinv.
  - cbn [calls]. cbv [mbind M_bind].
    pose proof (call_invariant w0 c this w Hinv) as Hstep.
    destruct (call c this w) as [this1 w1]. cbn [fst snd] in Hstep.
    apply IH, Hstep.
Qed.

(** C6.  Take a player that is not running and holds no stream, at a moment
    when no stream is open, and let any sequence of [start], [stop] and
    stream errors happen to it.  If the player is then running, it holds a
    stream, that stream is the one stream open, its data and error callbacks
    are the player (whose [onAudioReady] is [render] on its engine), and the
    sample rate of the engine is the rate of that stream.  At no moment
    along the way were two streams open. *)
Theorem running_invariant (this0 : OboePlayer) (w0 : Trace) (cs : list PlayerCall) :
  m_isRunning this0 = false ->
  m_stream this0 = None ->
  open_streams w0 = [] ->
  let '(this, w) := calls cs this0 w0 in
  (m_isRunning this = true ->
   exists stream,
     m_stream this = Some stream
     /\ open_streams w = [stream_addr stream]
     /\ b_dataCallback (stream_builder stream) = Some (this_addr this)
     /\ b_errorCallback (stream_builder stream) = Some (this_addr this)
     /\ m_sampleRate (m_engine this) = getSampleRate stream)
  /\ (m_isRunning this = false -> m_stream this = None /\ open_streams w = [])
  /\ (forall w1 w2, w = w0 ++ w1 ++ w2 -> (length (open_streams (w0 ++ w1)) <= 1)%nat).
Proof.
  intros Hrun Hstream Hopen.
  assert (Hinv : player_invariant w0 this0 w0).
  { unfold player_invariant, holds_the_open_stream, running_on_stream.
    rewrite Hrun, Hstream, Hopen.
    split; [exists []; rewrite app_nil_r; reflexivity |].
    split; [| repeat split; auto; discriminate].
    intros w1 w2 Heq.
    rewrite <- (app_nil_r w0) in Heq at 1. apply app_inv_head in Heq.
    symmetry in Heq. apply app_eq_nil in Heq. destruct Heq as [-> _].
    rewrite app_nil_r, Hopen. cbn. lia. }
  pose proof (calls_invariant w0 cs this0 w0 Hinv) as Hfinal.
  destruct (calls cs this0 w0) as [this w]. cbn [fst snd] in Hfinal.
  destruct Hfinal as (_ & Hsince & Hholds & Hrunning & Hstopped).
  unfold holds_the_open_stream in Hholds.
  split; [| split].
  - intros Hr. destruct (Hrunning Hr) as (stream & Hs & Hd & He & Hrate & _).
    exists stream. rewrite Hs in Hholds. auto.
  - intros Hr. rewrite (Hstopped Hr) in Hholds. auto.
  - exact Hsince.
Qed.

(** ** Computations that stay within the engine *)

Lemma engine_only_ret {A : Type} (a : A) : engine_only (mret a).
Proof. intros w. exists []. rewrite app_nil_r. split; [reflexivity | constructor]. Qed.

Lemma engine_only_emit (e : Event) : is_engine_event e = true -> engine_only (emit e).
Proof. intros He w. exists [e]. split; [reflexivity | repeat constructor; exact He]. Qed.

Lemma engine_only_bind {A B : Type} (c : M A) (k : A -> M B) :
  engine_only c -> (forall a, engine_only (k a)) -> engine_only (c ≫= k).
Proof.
  intros Hc Hk w. unfold mbind, M_bind.
  destruct (Hc w) as (ev1 & Hw1 & H1).
  destruct (c w) as [a w1]. cbn [snd] in Hw1. subst w1.
  destruct (Hk a (w ++ ev1)) as (ev2 & Hw2 & H2).
  exists (ev1 ++ ev2). rewrite Hw2, app_assoc. split; [reflexivity |].
  apply Forall_app. split; assumption.
Qed.

Lemma engine_only_tsf_load_memory (data : list byte) (size : Z) :
  engine_only (tsf_load_memory data size).
Proof.
  intros w. eexists. split; [reflexivity |]. repeat constructor.
Qed.

Lemma engine_only_tsf_presetcount (f : ptr) : engine_only (tsf_presetcount f).
Proof.
  intros w. eexists. split; [reflexivity |]. repeat constructor.
Qed.

(** Case analysis and the lemmas above, for the methods of the engine. *)
Ltac engine_steps :=
  unfold LOGI, LOGE, tsf_close, tsf_set_output, tsf_note_on, tsf_note_off;
  repeat first
    [ apply engine_only_ret
    | apply engine_only_emit; reflexivity
    | apply engine_only_tsf_load_memory
    | apply engine_only_tsf_presetcount
    | apply engine_only_bind; [| intros ?]
    | match goal with
      | |- engine_only (match ?x with _ => _ end) => destruct x
      | |- engine_only (if ?x then _ else _) => destruct x
      | |- engine_only (let _ := _ in _) => cbv zeta
      end ].

Lemma engine_only_close_if_loaded (handle : option ptr) : engine_only (close_if_loaded handle).
Proof. unfold close_if_loaded. engine_steps. Qed.

Lemma engine_only_loadSoundFont (mgr : AAssetManager) (path : string) :
  engine_only (loadSoundFont mgr path).
Proof. unfold loadSoundFont. engine_steps. Qed.

Lemma engine_only_initialize (this : SoundFontEngine) (mgr : AAssetManager)
    (pianoSfPath metronomeSfPath : string) :
  engine_only (initialize this mgr pianoSfPath metronomeSfPath).
Proof.
  unfold initialize. cbv zeta.
  repeat first
    [ apply engine_only_close_if_loaded
    | apply engine_only_loadSoundFont
    | progress engine_steps ].
Qed.

Lemma engine_only_dtor (this : SoundFontEngine) : engine_only (SoundFontEngine_dtor this).
Proof.
  unfold SoundFontEngine_dtor.
  repeat first [ apply engine_only_close_if_loaded | progress engine_steps ].
Qed.

Lemma engine_only_noteOn (this : SoundFontEngine) (channel midiNote : Z) (velocity : float32) :
  engine_only (noteOn this channel midiNote velocity).
Proof. unfold noteOn. engine_steps. Qed.

Lemma engine_only_noteOff (this : SoundFontEngine) (channel midiNote : Z) :
  engine_only (noteOff this channel midiNote).
Proof. unfold noteOff. engine_steps. Qed.

Lemma engine_only_setPreset (this : SoundFontEngine) (channel preset : Z) :
  engine_only (setPreset this channel preset).
Proof. unfold setPreset. engine_steps. Qed.

Lemma engine_only_playMetronomeClick (this : SoundFontEngine) (isAccented : bool) :
  engine_only (playMetronomeClick this isAccented).
Proof. unfold playMetronomeClick. engine_steps. Qed.

Lemma engine_events_open (events : list Event) :
  Forall (fun e => is_engine_event e = true) events ->
  forall o, fold_left open_step events o = o.
Proof.
  induction 1 as [|e events He _ IH]; intros o; [reflexivity |].
  cbn [fold_left]. destruct e; try discriminate He; apply IH.
Qed.

Lemma engine_events_along (events : list Event) :
  Forall (fun e => is_engine_event e = true) events ->
  forall o, (length o <= 1)%nat -> one_open_along o events.
Proof.
  induction 1 as [|e events He _ IH]; intros o Ho; [exact I |].
  cbn [one_open_along]. destruct e; try discriminate He; cbn [open_step]; auto.
Qed.

(** ** More on loading *)

(** [loadSoundFont], case by case. *)
Lemma loadSoundFont_cases (mgr : AAssetManager) (path : string) (w : Trace) :
  let '(h, w') := loadSoundFont mgr path w in
  (is_Some h <-> bank_loads mgr path = true)
  /\ exists events,
       w' = w ++ events
       /\ List.filter is_load events =
            match asset_data mgr path with
            | Some (bytes, dataSize) => [TsfLoadMemory bytes (to_int dataSize) h]
            | None => []
            end
       /\ length (List.filter is_error_log events) =
            (if bank_loads mgr path then 0 else 1)%nat
       /\ List.filter is_bank_reload events = List.filter is_load events
       /\ Forall (fun e => is_engine_event e = true) events
       /\ forall g cfg, fold_left (output_step g) events cfg = cfg.
Proof.
  unfold loadSoundFont, bank_loads, asset_data.
  destruct (AAssetManager_open mgr path) as [asset|].
  - destruct (AAsset_getBuffer asset) as [bytes|].
    + destruct (AAsset_getLength asset <=? 0).
      * run. split; [split; [intros [? [=]] | discriminate] |].
        eexists. split; [reflexivity |]. cbn. repeat split. repeat constructor.
      * unfold tsf_load_memory, tsf_presetcount. run.
        destruct (tsf_load_memory_ok bytes (to_int (AAsset_getLength asset))).
        -- run. split; [split; [reflexivity | eauto] |].
           eexists. split; [reflexivity |]. cbn. repeat split. repeat constructor.
        -- run. split; [split; [intros [? [=]] | discriminate] |].
           eexists. split; [reflexivity |]. cbn. repeat split. repeat constructor.
    + run. split; [split; [intros [? [=]] | discriminate] |].
      eexists. split; [reflexivity |]. cbn. repeat split. repeat constructor.
  - run. split; [split; [intros [? [=]] | discriminate] |].
    eexists. split; [reflexivity |]. cbn. repeat split. repeat constructor.
Qed.

(** X1.  [loadSoundFont] returns a bank exactly when the asset exists, has
    a buffer and a positive length, and the synthesiser parses it.  It
    calls [tsf_load_memory] once when it has the bytes, with the length
    converted to [int], and not at all otherwise; it writes one error line
    when it returns null and none when it returns a bank; it closes no bank
    and touches no stream. *)
Theorem loadSoundFont_result (mgr : AAssetManager) (path : string) (w : Trace) :
  let '(h, w') := loadSoundFont mgr path w in
  (is_Some h <-> bank_loads mgr path = true)
  /\ exists events,
       w' = w ++ events
       /\ List.filter is_load events =
            match asset_data mgr path with
            | Some (bytes, dataSize) => [TsfLoadMemory bytes (to_int dataSize) h]
            | None => []
            end
       /\ length (List.filter is_error_log events) =
            (if bank_loads mgr path then 0 else 1)%nat
       /\ List.filter is_bank_reload events = List.filter is_load events
       /\ Forall (fun e => is_engine_event e = true) events.
Proof.
  pose proof (loadSoundFont_cases mgr path w) as H.
  destruct (loadSoundFont mgr path w) as [h w'].
  destruct H as (Hiff & events & Hw & Hload & Herr & Hrel & Heng & _).
  split; [exact Hiff |]. exists events. auto.
Qed.

(** X2.  The length of the asset reaches the synthesiser as it is when it
    is below 2^31; a length from 2^31 up to 2^32 - 1 reaches it as a
    negative number, the length minus 2^32. *)
Theorem loadSoundFont_size (mgr : AAssetManager) (path : string) (bytes : list byte)
    (dataSize : Z) (w : Trace) :
  asset_data mgr path = Some (bytes, dataSize) ->
  exists size events,
    snd (loadSoundFont mgr path w) = w ++ events
    /\ List.filter is_load events =
         [TsfLoadMemory bytes size (fst (loadSoundFont mgr path w))]
    /\ 0 < dataSize
    /\ (dataSize < 2 ^ 31 -> size = dataSize)
    /\ (2 ^ 31 <= dataSize < 2 ^ 32 -> size = dataSize - 2 ^ 32 /\ size < 0).
Proof.
  intros Hdata.
  pose proof (loadSoundFont_cases mgr path w) as H.
  destruct (loadSoundFont mgr path w) as [h w'].
  destruct H as (_ & events & -> & Hload & _).
  rewrite Hdata in Hload.
  exists (to_int dataSize), events. cbn [fst snd].
  split; [reflexivity |]. split; [exact Hload |].
  assert (Hpos : 0 < dataSize).
  { unfold asset_data in Hdata.
    destruct (AAssetManager_open mgr path) as [asset|]; [| discriminate].
    destruct (AAsset_getBuffer asset); [| discriminate].
    destruct (Z.leb_spec (AAsset_getLength asset) 0); [discriminate |].
    injection Hdata as _ <-. assumption. }
  split; [exact Hpos |]. unfold to_int. split.
  - intros Hlt. rewrite Z.mod_small by lia. lia.
  - intros [Hge Hlt].
    replace (dataSize + 2 ^ 31) with ((dataSize - 2 ^ 31) + 1 * 2 ^ 32) by lia.
    rewrite Z.mod_add by lia. rewrite Z.mod_small by lia. lia.
Qed.

(** [initialize], statement by statement. *)
Lemma initialize_eq (this : SoundFontEngine) (mgr : AAssetManager)
    (pianoSfPath metronomeSfPath : string) (w : Trace) :
  initialize this mgr pianoSfPath metronomeSfPath w =
    let this0 :=
      set_m_tsfMetronome None (set_m_tsf None (set_m_assetManager (Some mgr) this)) in
    let '(hp, w3) := loadSoundFont mgr pianoSfPath (w ++ close_calls this) in
    match hp with
    | None => (false, set_m_tsf None this0, w3)
    | Some f =>
        let '(hm, w4) :=
          loadSoundFont mgr metronomeSfPath
            (w3 ++ [TsfSetOutput f TSF_STEREO_INTERLEAVED (m_sampleRate this) f32_0_0]) in
        (true, set_m_tsfMetronome hm (set_m_tsf (Some f) this0),
         w4 ++ click_bank_events this hm)
    end.
Proof.
  unfold initialize, close_if_loaded, close_calls. cbv zeta.
  cbn [m_tsf m_tsfMetronome m_sampleRate set_m_assetManager set_m_tsf set_m_tsfMetronome].
  destruct (m_tsf this), (m_tsfMetronome this); run; rewrite ?app_nil_r;
    (destruct (loadSoundFont mgr pianoSfPath _) as [[f|] w3]; [| reflexivity]);
    cbn [m_tsf]; (destruct (loadSoundFont mgr metronomeSfPath _) as [[fm|] w4]);
    cbn [m_tsfMetronome click_bank_events app]; rewrite <- ?app_assoc; reflexivity.
Qed.

(** X3.  [initialize] returns true exactly when the instrument bank loads.
    The instrument voice is then loaded, and the click voice is loaded
    exactly when its bank loads too; after a failure neither is.  The
    sample rate of the engine is not changed, and every voice that is
    loaded is configured for that sample rate, stereo interleaved, gain
    0. *)
Theorem initialize_result (this : SoundFontEngine) (mgr : AAssetManager)
    (pianoSfPath metronomeSfPath : string) (w : Trace) :
  let '(ok, this', w') := initialize this mgr pianoSfPath metronomeSfPath w in
  ok = bank_loads mgr pianoSfPath
  /\ isLoaded this' = ok
  /\ isMetronomeLoaded this' = ok && bank_loads mgr metronomeSfPath
  /\ m_sampleRate this' = m_sampleRate this
  /\ (forall f, m_tsf this' = Some f ->
                tsf_output w' f = configured_for (m_sampleRate this))
  /\ (forall fm, m_tsfMetronome this' = Some fm ->
                 tsf_output w' fm = configured_for (m_sampleRate this)).
Proof.
  rewrite initialize_eq. cbv zeta.
  pose proof (loadSoundFont_cases mgr pianoSfPath (w ++ close_calls this)) as Hp.
  destruct (loadSoundFont mgr pianoSfPath _) as [hp w3].
  destruct Hp as (Hp & ev3 & -> & _ & _ & _ & _ & Hout3).
  destruct hp as [f|].
  - assert (Hpl : bank_loads mgr pianoSfPath = true) by (apply Hp; eauto).
    match goal with |- context [loadSoundFont mgr metronomeSfPath ?w0] =>
      pose proof (loadSoundFont_cases mgr metronomeSfPath w0) as Hm;
      destruct (loadSoundFont mgr metronomeSfPath w0) as [hm w4]
    end.
    destruct Hm as (Hm & ev4 & -> & _ & _ & _ & _ & Hout4).
    rewrite Hpl. cbn [andb].
    split; [reflexivity |]. split; [reflexivity |].
    split.
    { cbn. destruct hm as [fm|].
      - symmetry. apply Hm. eauto.
      - destruct (bank_loads mgr metronomeSfPath); [| reflexivity].
        destruct (proj2 Hm eq_refl) as [? [=]]. }
    split; [reflexivity |].
    split.
    + intros g [= <-].
      rewrite !tsf_output_app, Hout4. cbn [fold_left output_step].
      rewrite Nat.eqb_refl.
      destruct hm as [fm|]; cbn; [destruct (fm =? f)%nat |]; reflexivity.
    + intros g Hg. cbn in Hg. subst hm.
      rewrite !tsf_output_app. cbn. rewrite Nat.eqb_refl. reflexivity.
  - assert (Hpl : bank_loads mgr pianoSfPath = false).
    { destruct (bank_loads mgr pianoSfPath); [| reflexivity].
      destruct (proj2 Hp eq_refl) as [? [=]]. }
    rewrite Hpl. cbn. repeat split; discriminate.
Qed.

(** X4.  [initialize] begins by closing the banks the engine holds, each
    once, and closes nothing after that: whatever it loads, it loads once
    the old banks are gone, and at most two banks. *)
Theorem initialize_closes_first (this : SoundFontEngine) (mgr : AAssetManager)
    (pianoSfPath metronomeSfPath : string) (w : Trace) :
  exists rest,
    snd (initialize this mgr pianoSfPath metronomeSfPath w) = w ++ close_calls this ++ rest
    /\ List.filter is_bank_reload rest = List.filter is_load rest
    /\ (length (List.filter is_load rest) <= 2)%nat
    /\ Forall (fun e => is_engine_event e = true) rest.
Proof.
  rewrite initialize_eq. cbv zeta.
  pose proof (loadSoundFont_cases mgr pianoSfPath (w ++ close_calls this)) as Hp.
  destruct (loadSoundFont mgr pianoSfPath _) as [hp w3].
  destruct Hp as (_ & ev3 & -> & Hload3 & _ & Hrel3 & Heng3 & _).
  assert (Hlen3 : (length (List.filter is_load ev3) <= 1)%nat).
  { rewrite Hload3. destruct (asset_data mgr pianoSfPath) as [[? ?]|]; cbn; lia. }
  destruct hp as [f|].
  - match goal with |- context [loadSoundFont mgr metronomeSfPath ?w0] =>
      pose proof (loadSoundFont_cases mgr metronomeSfPath w0) as Hm;
      destruct (loadSoundFont mgr metronomeSfPath w0) as [hm w4]
    end.
    destruct Hm as (_ & ev4 & -> & Hload4 & _ & Hrel4 & Heng4 & _).
    assert (Hlen4 : (length (List.filter is_load ev4) <= 1)%nat).
    { rewrite Hload4. destruct (asset_data mgr metronomeSfPath) as [[? ?]|]; cbn; lia. }
    cbn [snd].
    exists (ev3 ++ [TsfSetOutput f TSF_STEREO_INTERLEAVED (m_sampleRate this) f32_0_0]
              ++ ev4 ++ click_bank_events this hm).
    split; [rewrite <- !app_assoc; reflexivity |].
    rewrite !List.filter_app, !length_app, Hrel3, Hrel4.
    split; [| split].
    + destruct hm; reflexivity.
    + destruct hm; cbn; lia.
    + repeat (apply Forall_app; split); try assumption;
        destruct hm; repeat constructor.
  - cbn [snd]. exists ev3. rewrite <- app_assoc.
    split; [reflexivity |]. split; [exact Hrel3 |]. split; [lia | exact Heng3].
Qed.

(** ** More on notes, clicks and the sample rate *)

(** X5.  On an engine with an instrument voice, [noteOn] followed by
    [noteOff] of the same pitch leaves the engine as it was and the pitch
    not sounding, whatever the two channels are: the channel plays no part.
    In between the pitch sounds, and no other pitch is affected.  On an
    engine without an instrument voice both calls do nothing, not even
    log. *)
Theorem noteOn_noteOff_round_trip (this : SoundFontEngine) (channel1 channel2 midiNote : Z)
    (velocity : float32) (w : Trace) :
  (forall f, m_tsf this = Some f ->
     let '(this1, w1) := noteOn this channel1 midiNote velocity w in
     let '(this2, w2) := noteOff this1 channel2 midiNote w1 in
     this2 = this
     /\ sounding w1 f 0 midiNote = true
     /\ sounding w2 f 0 midiNote = false
     /\ (forall other, other <> midiNote -> sounding w2 f 0 other = sounding w f 0 other)
     /\ List.filter is_note_event w2 =
          List.filter is_note_event w ++ [TsfNoteOn f 0 midiNote velocity;
                                           TsfNoteOff f 0 midiNote])
  /\ (m_tsf this = None ->
      noteOn this channel1 midiNote velocity w = (this, w)
      /\ noteOff this channel2 midiNote w = (this, w)).
Proof.
  split.
  - intros f Hf. unfold noteOn, noteOff. rewrite Hf. run. rewrite Hf. run.
    split; [reflexivity |].
    rewrite !sounding_app. cbn [fold_left sounding_step].
    rewrite Nat.eqb_refl, !Z.eqb_refl. cbn [andb].
    split; [reflexivity |]. split; [reflexivity |]. split.
    + intros other Hne.
      rewrite sounding_app. cbn [fold_left sounding_step]. rewrite Nat.eqb_refl.
      destruct (Z.eqb_spec midiNote other) as [Heq | _]; [congruence |].
      reflexivity.
    + rewrite List.filter_app. reflexivity.
  - intros Hf. unfold noteOn, noteOff. rewrite Hf. split; reflexivity.
Qed.

(** X6.  After a click, whatever was sounding before, the click pitch that
    was asked for sounds and the other one does not. *)
Theorem playMetronomeClick_exclusive (this : SoundFontEngine) (fm : ptr)
    (isAccented : bool) (w : Trace) :
  m_tsfMetronome this = Some fm ->
  let w' := snd (playMetronomeClick this isAccented w) in
  sounding w' fm 0 METRONOME_NOTE_ACCENTED = isAccented
  /\ sounding w' fm 0 METRONOME_NOTE_NORMAL = negb isAccented.
Proof.
  intros Hfm. unfold playMetronomeClick. rewrite Hfm. run. cbn [snd].
  rewrite !sounding_app. cbn [fold_left sounding_step].
  rewrite Nat.eqb_refl. destruct isAccented; cbn; auto.
Qed.

(** X7.  Of two [setSampleRate] in a row the second one wins: the engine,
    and the format every bank is configured with, are as after the second
    one alone, and each voice the engine holds is configured for the second
    rate.  The voice handles are the ones the engine had. *)
Theorem setSampleRate_last_wins (this : SoundFontEngine) (rate1 rate2 : Z) (w : Trace) :
  let '(this1, w1) := setSampleRate this rate1 w in
  let '(this2, w2) := setSampleRate this1 rate2 w1 in
  let '(this3, w3) := setSampleRate this rate2 w in
  this2 = this3
  /\ m_tsf this2 = m_tsf this
  /\ m_tsfMetronome this2 = m_tsfMetronome this
  /\ (forall f, tsf_output w2 f = tsf_output w3 f)
  /\ (forall f, m_tsf this = Some f \/ m_tsfMetronome this = Some f ->
                tsf_output w2 f = configured_for rate2).
Proof.
  rewrite !setSampleRate_eq.
  destruct this as [t tm am sr c a].
  unfold configuration_calls, set_m_sampleRate, configured_for;
    cbn [m_tsf m_tsfMetronome m_assetManager m_sampleRate m_metronomeClick
         m_metronomeAccented].
  split; [reflexivity |]. split; [reflexivity |]. split; [reflexivity |].
  split.
  - intros f. rewrite !tsf_output_app.
    destruct t as [f0|], tm as [fm|]; cbn [app fold_left output_step];
      repeat match goal with |- context [(?x =? f)%nat] => destruct (x =? f)%nat end;
      reflexivity.
  - intros f Hf. rewrite !tsf_output_app.
    destruct t as [f0|], tm as [fm|]; destruct Hf as [Hf | Hf];
      try discriminate Hf; injection Hf as ->;
      cbn [app fold_left output_step]; rewrite ?Nat.eqb_refl;
      repeat match goal with |- context [(?x =? f)%nat] => destruct (x =? f)%nat end;
      reflexivity.
Qed.

(** ** Construction and destruction *)

Lemma OboePlayer_ctor_eq (w : Trace) :
  OboePlayer_ctor w =
    (new_player (length w),
     w ++ [Log ANDROID_LOG_INFO SF_TAG "SoundFontEngine created" [];
           Log ANDROID_LOG_INFO OBOE_TAG "OboePlayer created" []]).
Proof. unfold OboePlayer_ctor, SoundFontEngine_ctor. run. reflexivity. Qed.

Lemma SoundFontEngine_dtor_eq (this : SoundFontEngine) (w : Trace) :
  SoundFontEngine_dtor this w =
    (tt, w ++ close_calls this
           ++ [Log ANDROID_LOG_INFO SF_TAG "SoundFontEngine destroyed" []]).
Proof.
  unfold SoundFontEngine_dtor, close_if_loaded, close_calls.
  destruct (m_tsf this), (m_tsfMetronome this); run; reflexivity.
Qed.

Lemma OboePlayer_dtor_eq (this : OboePlayer) (w : Trace) :
  OboePlayer_dtor this w = (tt, w ++ dtor_events this).
Proof.
  unfold OboePlayer_dtor, dtor_events. cbv [mbind M_bind].
  rewrite stop_eq. unfold LOGI, emit. rewrite SoundFontEngine_dtor_eq.
  cbn [m_engine set_m_isRunning set_m_stream].
  repeat (rewrite <- app_assoc || rewrite <- app_comm_cons). reflexivity.
Qed.

Lemma close_calls_engine (this : SoundFontEngine) :
  Forall (fun e => is_engine_event e = true) (close_calls this).
Proof.
  unfold close_calls. destruct (m_tsf this), (m_tsfMetronome this); repeat constructor.
Qed.

(** The destructor leaves no stream of the player open. *)
Lemma dtor_events_open (this : OboePlayer) (w : Trace) :
  holds_the_open_stream this w ->
  one_open_along (open_streams w) (dtor_events this)
  /\ fold_left open_step (dtor_events this) (open_streams w) = [].
Proof.
  unfold holds_the_open_stream, dtor_events, stop_calls. intros ->.
  rewrite !one_open_along_app, !fold_left_app.
  pose proof (close_calls_engine (m_engine this)) as Hc.
  rewrite (engine_events_open _ Hc).
  destruct (m_stream this) as [stream|]; cbn; rewrite ?Nat.eqb_refl; cbn;
    repeat split; auto using engine_events_along.
Qed.

Lemma one_open_from_extend (w0 w events : Trace) :
  one_open_from w0 w ->
  one_open_along (open_streams w) events ->
  one_open_from w0 (w ++ events).
Proof.
  intros ([a ->] & Hsince) Hal. split.
  - exists (a ++ events). rewrite app_assoc. reflexivity.
  - rewrite <- app_assoc. apply one_open_since_app; assumption.
Qed.

Lemma one_open_from_length (w0 w : Trace) :
  one_open_from w0 w -> (length (open_streams w) <= 1)%nat.
Proof.
  intros ([a ->] & Hsince). apply (Hsince a []). rewrite app_nil_r. reflexivity.
Qed.

Lemma one_open_from_engine (w0 w events : Trace) :
  one_open_from w0 w ->
  Forall (fun e => is_engine_event e = true) events ->
  one_open_from w0 (w ++ events) /\ open_streams (w ++ events) = open_streams w.
Proof.
  intros Hfrom Hev. split.
  - apply one_open_from_extend; [assumption |].
    apply engine_events_along; [assumption |]. eapply one_open_from_length; eassumption.
  - rewrite open_streams_app. apply engine_events_open. assumption.
Qed.

(** X8.  The destructor of a player asks its stream to stop and closes it
    before it closes the banks.  After it, the stream the player held is
    not open, and the banks of its engine are closed: they have no output
    format and no pitch of theirs is sounding. *)
Theorem OboePlayer_dtor_releases (this : OboePlayer) (w : Trace) :
  let w' := snd (OboePlayer_dtor this w) in
  w' = w ++ stop_calls this
         ++ [stopped_line; Log ANDROID_LOG_INFO OBOE_TAG "OboePlayer destroyed" []]
         ++ close_calls (m_engine this)
         ++ [Log ANDROID_LOG_INFO SF_TAG "SoundFontEngine destroyed" []]
  /\ (holds_the_open_stream this w -> open_streams w' = [])
  /\ (forall f, m_tsf (m_engine this) = Some f \/ m_tsfMetronome (m_engine this) = Some f ->
                tsf_output w' f = None
                /\ forall preset_index key, sounding w' f preset_index key = false).
Proof.
  rewrite OboePlayer_dtor_eq. cbn [snd]. split; [reflexivity |]. split.
  - intros Hholds. rewrite open_streams_app.
    apply (dtor_events_open this w Hholds).
  - intros f Hf. unfold dtor_events, stop_calls, close_calls.
    split; [| intros preset_index key];
      rewrite ?tsf_output_app, ?sounding_app;
      destruct (m_stream this) as [stream|];
      destruct (m_tsf (m_engine this)) as [f0|], (m_tsfMetronome (m_engine this)) as [fm|];
      destruct Hf as [Hf | Hf]; try discriminate Hf; injection Hf as ->;
      cbn; rewrite ?Nat.eqb_refl;
      repeat match goal with |- context [(?x =? f)%nat] => destruct (x =? f)%nat end;
      reflexivity.
Qed.

(** ** Whole runs of the bridge *)

Lemma bridge_invariant_from (w0 : Trace) (g : option OboePlayer) (w : Trace) :
  bridge_invariant w0 g w ->
  one_open_from w0 w
  /\ match g with
     | Some player => holds_the_open_stream player w
     | None => open_streams w = []
     end.
Proof.
  destruct g as [player|]; cbn [bridge_invariant].
  - intros [(Hext & Hsince & Hholds & _) _]. repeat split; assumption.
  - intros (Hext & Hsince & Hopen). repeat split; assumption.
Qed.

Lemma bridge_invariant_engine (w0 : Trace) (g : option OboePlayer) (w events : Trace) :
  bridge_invariant w0 g w ->
  Forall (fun e => is_engine_event e = true) events ->
  bridge_invariant w0 g (w ++ events).
Proof.
  intros Hinv Hev.
  destruct (bridge_invariant_from w0 g w Hinv) as [Hfrom Hopen].
  destruct (one_open_from_engine w0 w events Hfrom Hev) as [[Hext Hsince] Hsame].
  destruct g as [player|]; cbn [bridge_invariant] in *.
  - destruct Hinv as [(_ & _ & _ & Hrun & Hstop) Hloaded].
    split; [| exact Hloaded].
    unfold player_invariant, holds_the_open_stream. rewrite Hsame. auto.
  - rewrite Hsame. auto.
Qed.

(** Destroying the player the bridge holds leaves the bridge in order,
    without a player. *)
Lemma bridge_invariant_reset (w0 : Trace) (g : option OboePlayer) (w : Trace) :
  bridge_invariant w0 g w ->
  fst (g_player_reset g w) = None
  /\ bridge_invariant w0 None (snd (g_player_reset g w)).
Proof.
  intros Hinv.
  destruct (bridge_invariant_from w0 g w Hinv) as [Hfrom Hopen].
  destruct g as [player|]; unfold g_player_reset.
  - cbv [mbind M_bind mret M_ret]. rewrite OboePlayer_dtor_eq. cbn [fst snd].
    split; [reflexivity |].
    destruct (dtor_events_open player w Hopen) as [Hal Hend].
    destruct (one_open_from_extend w0 w _ Hfrom Hal) as [Hext Hsince].
    cbn [bridge_invariant]. rewrite open_streams_app. auto.
  - cbn. split; [reflexivity | exact Hinv].
Qed.

Lemma initialize_loaded (this : SoundFontEngine) (mgr : AAssetManager)
    (pianoSfPath metronomeSfPath : string) (w : Trace) :
  fst (fst (initialize this mgr pianoSfPath metronomeSfPath w)) = true ->
  isLoaded (snd (fst (initialize this mgr pianoSfPath metronomeSfPath w))) = true
  /\ bank_loads mgr pianoSfPath = true.
Proof.
  rewrite initialize_eq. cbv zeta.
  pose proof (loadSoundFont_cases mgr pianoSfPath (w ++ close_calls this)) as Hp.
  destruct (loadSoundFont mgr pianoSfPath _) as [[f|] w3]; [| discriminate].
  destruct Hp as (Hp & _).
  destruct (loadSoundFont mgr metronomeSfPath _) as [hm w4]. cbn.
  intros _. split; [reflexivity |]. apply Hp. eauto.
Qed.

(** [nativeInitialize] with an asset manager and a path. *)
Lemma nativeInitialize_invariant (w0 : Trace) (g : option OboePlayer)
    (mgr : AAssetManager) (sfPath : string) (w : Trace) :
  bridge_invariant w0 g w ->
  let r := nativeInitialize g (Some mgr) (Some sfPath) w in
  bridge_invariant w0 (snd (fst r)) (snd r)
  /\ (fst (fst r) = false -> snd (fst r) = None)
  /\ (fst (fst r) = true ->
      bank_loads mgr sfPath = true
      /\ exists player, snd (fst r) = Some player /\ m_isRunning player = true).
Proof.
  intros Hinv. unfold nativeInitialize.
  cbv [mbind M_bind mret M_ret LOGI LOGE emit].
  rewrite OboePlayer_ctor_eq.
  match goal with |- context [g_player_reset g ?w1] =>
    assert (Hinv1 : bridge_invariant w0 g w1)
      by (rewrite <- app_assoc; apply bridge_invariant_engine;
          [exact Hinv | repeat constructor]);
    destruct (bridge_invariant_reset w0 g w1 Hinv1) as [_ Hinv2];
    destruct (g_player_reset g w1) as [g1 w2]
  end.
  cbn [snd] in Hinv2.
  unfold initialize_legacy.
  match goal with |- context [initialize ?e mgr sfPath ?m w2] =>
    pose proof (engine_only_initialize e mgr sfPath m w2) as (ev3 & Hw3 & Hev3);
    pose proof (initialize_loaded e mgr sfPath m w2) as Hloaded;
    destruct (initialize e mgr sfPath m w2) as [[sfLoaded engine] w3]
  end.
  cbn [fst snd] in Hw3, Hloaded. subst w3.
  pose proof (bridge_invariant_engine w0 None w2 ev3 Hinv2 Hev3) as Hinv3.
  set (player1 := set_m_engine engine (new_player _)).
  destruct sfLoaded; cbn [negb].
  - destruct (Hloaded eq_refl) as [Hisl Hbank].
    assert (Hrun1 : m_isRunning player1 = false) by reflexivity.
    destruct (start_steps player1 (w2 ++ ev3) Hrun1) as (ev4 & Hw4 & Hal4 & Hopen4 & Hr4 & Hs4).
    destruct (start_events player1 (w2 ++ ev3) Hrun1)
      as (ev4' & _ & _ & _ & _ & Ht4 & _ & Hok4 & Hfail4).
    destruct (start player1 (w2 ++ ev3)) as [[started player2] w4].
    cbn [fst snd] in *. subst w4.
    destruct Hinv3 as (Hext3 & Hsince3 & Hopen3).
    assert (Hfrom4 : one_open_from w0 ((w2 ++ ev3) ++ ev4)).
    { apply one_open_from_extend; [split; assumption |]. rewrite Hopen3. exact Hal4. }
    assert (Hopen4' : open_streams ((w2 ++ ev3) ++ ev4) =
              match m_stream player2 with
              | Some stream => [stream_addr stream]
              | None => []
              end).
    { rewrite open_streams_app, Hopen3. exact Hopen4. }
    destruct started; cbn [negb fst snd].
    + destruct (Hok4 eq_refl) as [Hrun2 _].
      split; [| split; [discriminate |]].
      * apply (bridge_invariant_engine w0 (Some player2)); [| repeat constructor].
        cbn [bridge_invariant]. split.
        -- destruct Hfrom4. repeat split; assumption.
        -- unfold isLoaded in *. rewrite Ht4. exact Hisl.
      * intros _. split; [exact Hbank |]. eauto.
    + destruct (Hfail4 eq_refl) as (Hrun2 & Hstream2 & _).
      assert (Hinv5 : bridge_invariant w0 (Some player2)
                        (((w2 ++ ev3) ++ ev4) ++
                         [Log ANDROID_LOG_ERROR NATIVE_TAG "Failed to start audio stream" []])).
      { apply bridge_invariant_engine; [| repeat constructor].
        cbn [bridge_invariant]. split.
        - destruct Hfrom4. repeat split; assumption.
        - unfold isLoaded in *. rewrite Ht4. exact Hisl. }
      destruct (bridge_invariant_reset w0 _ _ Hinv5) as [Hnone Hinv6].
      destruct (g_player_reset (Some player2) _) as [g6 w6].
      cbn [fst snd] in *. subst g6.
      split; [exact Hinv6 |]. split; [reflexivity | discriminate].
  - assert (Hopen : holds_the_open_stream player1 (w2 ++ ev3)).
    { unfold holds_the_open_stream. cbn. apply Hinv3. }
    match goal with |- context [g_player_reset (Some player1) ?w5] =>
      assert (Hinv5 : bridge_invariant w0 None w5)
        by (apply bridge_invariant_engine; [exact Hinv3 | repeat constructor])
    end.
    unfold g_player_reset. cbv [mbind M_bind mret M_ret].
    rewrite OboePlayer_dtor_eq. cbn [fst snd].
    split; [| split; [reflexivity | discriminate]].
    apply bridge_invariant_engine; [exact Hinv5 |].
    unfold dtor_events, stop_calls. cbn [m_stream player1 set_m_engine new_player app].
    repeat constructor.
    apply Forall_app; split; [apply close_calls_engine | repeat constructor].
Qed.

Lemma set_m_engine_same (this : OboePlayer) : set_m_engine (m_engine this) this = this.
Proof. destruct this. reflexivity. Qed.

Lemma noteOn_same (this : SoundFontEngine) (channel midiNote : Z) (velocity : float32)
    (w : Trace) :
  fst (noteOn this channel midiNote velocity w) = this.
Proof. unfold noteOn. destruct (m_tsf this); reflexivity. Qed.

Lemma noteOff_same (this : SoundFontEngine) (channel midiNote : Z) (w : Trace) :
  fst (noteOff this channel midiNote w) = this.
Proof. unfold noteOff. destruct (m_tsf this); reflexivity. Qed.

Lemma playMetronomeClick_same (this : SoundFontEngine) (isAccented : bool) (w : Trace) :
  fst (playMetronomeClick this isAccented w) = this.
Proof. unfold playMetronomeClick. destruct (m_tsfMetronome this); reflexivity. Qed.

(** A call that goes to the engine of the player and gives the engine back
    as it was keeps the bridge in order. *)
Lemma bridge_invariant_forward (w0 : Trace) (player : OboePlayer)
    (c : M SoundFontEngine) (w : Trace) :
  engine_only c ->
  fst (c w) = m_engine player ->
  bridge_invariant w0 (Some player) w ->
  bridge_invariant w0 (Some (set_m_engine (fst (c w)) player)) (snd (c w)).
Proof.
  intros Hc Hsame Hinv. rewrite Hsame, set_m_engine_same.
  destruct (Hc w) as (events & -> & Hev).
  apply bridge_invariant_engine; assumption.
Qed.

Lemma stream_error_keeps_tsf (this : OboePlayer) (stream : ptr) (error : Result)
    (w : Trace) :
  m_tsf (m_engine (fst (stream_error this stream error w))) = m_tsf (m_engine this).
Proof.
  unfold stream_error, onErrorAfterClose, reopenStream.
  cbv [mbind M_bind mret M_ret LOGI LOGE emit].
  destruct (m_isRunning this); [| reflexivity].
  rewrite stop_eq.
  match goal with |- context [start ?p ?w1] =>
    destruct (start_events p w1 eq_refl) as (ev & _ & _ & _ & _ & Ht & _);
    destruct (start p w1) as [[ok this'] w']
  end.
  cbn [fst snd] in *. exact Ht.
Qed.

Lemma bridge_call_invariant (w0 : Trace) (c : BridgeCall) (g : option OboePlayer)
    (w : Trace) :
  bridge_invariant w0 g w ->
  bridge_invariant w0 (fst (bridge_call c g w)) (snd (bridge_call c g w)).
Proof.
  intros Hinv.
  destruct c as [mgr path | channel midiNote velocity | channel midiNote | isAccented
                | channel preset | | stream error]; cbn [bridge_call].
  - (* nativeInitialize *)
    cbv [mbind M_bind mret M_ret].
    destruct mgr as [mgr|]; [destruct path as [path|] |].
    + pose proof (nativeInitialize_invariant w0 g mgr path w Hinv) as [H _].
      destruct (nativeInitialize g (Some mgr) (Some path) w) as [[ok g'] w'].
      exact H.
    + unfold nativeInitialize. cbv [mbind M_bind mret M_ret LOGI LOGE emit]. cbn [fst snd].
      rewrite <- app_assoc. apply bridge_invariant_engine; [exact Hinv | repeat constructor].
    + unfold nativeInitialize. cbv [mbind M_bind mret M_ret LOGI LOGE emit]. cbn [fst snd].
      rewrite <- app_assoc. apply bridge_invariant_engine; [exact Hinv | repeat constructor].
  - (* nativeNoteOn *)
    unfold nativeNoteOn. destruct g as [player|]; [| exact Hinv].
    cbv [mbind M_bind mret M_ret].
    pose proof (bridge_invariant_forward w0 player
                  (noteOn (m_engine player) channel midiNote velocity) w
                  (engine_only_noteOn _ _ _ _) (noteOn_same _ _ _ _ _) Hinv) as H.
    destruct (noteOn (m_engine player) channel midiNote velocity w). exact H.
  - (* nativeNoteOff *)
    unfold nativeNoteOff. destruct g as [player|]; [| exact Hinv].
    cbv [mbind M_bind mret M_ret].
    pose proof (bridge_invariant_forward w0 player
                  (noteOff (m_engine player) channel midiNote) w
                  (engine_only_noteOff _ _ _) (noteOff_same _ _ _ _) Hinv) as H.
    destruct (noteOff (m_engine player) channel midiNote w). exact H.
  - (* nativePlayMetronome *)
    unfold nativePlayMetronome. destruct g as [player|]; [| exact Hinv].
    cbv [mbind M_bind mret M_ret].
    pose proof (bridge_invariant_forward w0 player
                  (playMetronomeClick (m_engine player) isAccented) w
                  (engine_only_playMetronomeClick _ _) (playMetronomeClick_same _ _ _) Hinv)
      as H.
    destruct (playMetronomeClick (m_engine player) isAccented w). exact H.
  - (* nativeSetPreset *)
    unfold nativeSetPreset. destruct g as [player|]; [| exact Hinv].
    cbv [mbind M_bind mret M_ret].
    pose proof (bridge_invariant_forward w0 player
                  (setPreset (m_engine player) channel preset) w
                  (engine_only_setPreset _ _ _) eq_refl Hinv) as H.
    destruct (setPreset (m_engine player) channel preset w). exact H.
  - (* nativeRelease *)
    unfold nativeRelease. cbv [mbind M_bind mret M_ret LOGI emit].
    match goal with |- context [g_player_reset g ?w1] =>
      assert (Hinv1 : bridge_invariant w0 g w1)
        by (apply bridge_invariant_engine; [exact Hinv | repeat constructor]);
      destruct (bridge_invariant_reset w0 g w1 Hinv1) as [Hnone Hinv2];
      destruct (g_player_reset g w1) as [g1 w2]
    end.
    cbn [fst snd] in *. subst g1.
    apply bridge_invariant_engine; [exact Hinv2 | repeat constructor].
  - (* an error on a stream *)
    destruct g as [player|]; [| exact Hinv].
    cbv [mbind M_bind mret M_ret].
    destruct Hinv as [Hplayer Hloaded].
    pose proof (call_invariant w0 (StreamError stream error) player w Hplayer) as H.
    pose proof (stream_error_keeps_tsf player stream error w) as Ht.
    cbn [call] in H.
    destruct (stream_error player stream error w) as [player' w']. cbn [fst snd] in *.
    split; [exact H |]. unfold isLoaded in *. rewrite Ht. exact Hloaded.
Qed.

Lemma bridge_calls_invariant (w0 : Trace) (cs : list BridgeCall) :
  forall (g : option OboePlayer) (w : Trace),
    bridge_invariant w0 g w ->
    bridge_invariant w0 (fst (bridge_calls cs g w)) (snd (bridge_calls cs g w)).
Proof.
  induction cs as [|c cs IH]; intros g w Hinv.
  - exact Hinv.
  - cbn [bridge_calls]. cbv [mbind M_bind].
    pose proof (bridge_call_invariant w0 c g w Hinv) as Hstep.
    destruct (bridge_call c g w) as [g1 w1]. cbn [fst snd] in Hstep.
    apply IH, Hstep.
Qed.

(** X11.  Start with no player, at a moment when no stream is open, and let
    the host make any calls to the bridge, with stream errors in between.
    Then at no moment were two streams open, also not while one player was
    replaced by another.  [nativeIsReady] is true exactly when the bridge
    holds a player.  Without a player no stream is open.  A player that is
    running holds the one stream that is open, and [nativeGetSampleRate]
    and the engine have the sample rate of that stream. *)
Theorem bridge_runs (cs : list BridgeCall) (w0 : Trace) :
  open_streams w0 = [] ->
  let '(g_player, w) := bridge_calls cs g_player_initial w0 in
  (forall w1 w2, w = w0 ++ w1 ++ w2 -> (length (open_streams (w0 ++ w1)) <= 1)%nat)
  /\ nativeIsReady g_player = match g_player with Some _ => true | None => false end
  /\ (g_player = None -> open_streams w = [])
  /\ (forall player,
        g_player = Some player ->
        m_isRunning player = true ->
        exists stream,
          m_stream player = Some stream
          /\ open_streams w = [stream_addr stream]
          /\ nativeGetSampleRate g_player = getSampleRate stream
          /\ m_sampleRate (m_engine player) = getSampleRate stream).
Proof.
  intros Hopen.
  assert (Hinv : bridge_invariant w0 g_player_initial w0).
  { cbn. split; [exists []; rewrite app_nil_r; reflexivity |]. split; [| exact Hopen].
    intros w1 w2 Heq.
    rewrite <- (app_nil_r w0) in Heq at 1. apply app_inv_head in Heq.
    symmetry in Heq. apply app_eq_nil in Heq. destruct Heq as [-> _].
    rewrite app_nil_r, Hopen. cbn. lia. }
  pose proof (bridge_calls_invariant w0 cs g_player_initial w0 Hinv) as Hfinal.
  destruct (bridge_calls cs g_player_initial w0) as [g w]. cbn [fst snd] in Hfinal.
  destruct g as [player|]; cbn [bridge_invariant] in Hfinal.
  - destruct Hfinal as [(_ & Hsince & Hholds & Hrunning & _) Hloaded].
    split; [exact Hsince |]. split; [exact Hloaded |]. split; [discriminate |].
    intros player' [= <-] Hrun.
    destruct (Hrunning Hrun) as (stream & Hs & _ & _ & Hrate & Hprate).
    exists stream. unfold holds_the_open_stream in Hholds. rewrite Hs in Hholds.
    auto.
  - destruct Hfinal as (_ & Hsince & Hnone).
    split; [exact Hsince |]. split; [reflexivity |]. split; [auto | discriminate].
Qed.

Lemma occurs_app (d x y : Trace) :
  (exists before after, x = before ++ d ++ after) ->
  exists before after, x ++ y = before ++ d ++ after.
Proof.
  intros (b & a & ->). exists b, (a ++ y). rewrite <- !app_assoc. reflexivity.
Qed.

(** X9.  [nativeInitialize] without an asset manager or without a path
    returns false and leaves the player the bridge holds, if any, untouched:
    all it does is write two lines to the log.  With both, a false result
    leaves the bridge without a player, also when it held one before; a true
    result means that the instrument bank loaded and that the bridge holds a
    new player that is running on a stream, is ready, and reports the
    sample rate of that stream, which is also the rate of its engine.  In
    both cases the player held before has been destroyed. *)
Theorem nativeInitialize_outcomes (g_player : option OboePlayer)
    (assetManager : option AAssetManager) (soundFontPath : option string) (w : Trace) :
  let '(ok, g_player', w') := nativeInitialize g_player assetManager soundFontPath w in
  (assetManager = None \/ soundFontPath = None ->
   ok = false
   /\ g_player' = g_player
   /\ exists line,
        is_error_log line = true
        /\ w' = w ++ [Log ANDROID_LOG_INFO NATIVE_TAG "Initializing native audio engine..." [];
                      line])
  /\ (forall mgr sfPath,
        assetManager = Some mgr ->
        soundFontPath = Some sfPath ->
        (ok = false -> g_player' = None)
        /\ (ok = true ->
            bank_loads mgr sfPath = true
            /\ exists player stream,
                 g_player' = Some player
                 /\ m_isRunning player = true
                 /\ m_stream player = Some stream
                 /\ nativeIsReady g_player' = true
                 /\ nativeGetSampleRate g_player' = getSampleRate stream
                 /\ m_sampleRate (m_engine player) = getSampleRate stream)
        /\ (forall old, g_player = Some old ->
                        exists before after, w' = before ++ dtor_events old ++ after)).
Proof.
  destruct assetManager as [mgr|]; [destruct soundFontPath as [sfPath|] |].
  - unfold nativeInitialize.
    cbv [mbind M_bind mret M_ret LOGI LOGE emit].
    rewrite OboePlayer_ctor_eq.
    match goal with |- context [g_player_reset g_player ?w1] =>
      assert (Hold : forall old, g_player = Some old ->
                snd (g_player_reset g_player w1) = w1 ++ dtor_events old)
        by (intros old ->; unfold g_player_reset; cbv [mbind M_bind mret M_ret];
            rewrite OboePlayer_dtor_eq; reflexivity);
      destruct (g_player_reset g_player w1) as [g1 w2]
    end.
    cbn [snd] in Hold.
    unfold initialize_legacy.
    match goal with |- context [initialize ?e mgr sfPath ?m w2] =>
      pose proof (engine_only_initialize e mgr sfPath m w2) as (ev3 & Hw3 & _);
      pose proof (initialize_loaded e mgr sfPath m w2) as Hloaded;
      destruct (initialize e mgr sfPath m w2) as [[sfLoaded engine] w3]
    end.
    cbn [fst snd] in Hw3, Hloaded. subst w3.
    set (player1 := set_m_engine engine (new_player _)).
    destruct sfLoaded; cbn [negb].
    + destruct (Hloaded eq_refl) as [Hisl Hbank].
      assert (Hrun1 : m_isRunning player1 = false) by reflexivity.
      destruct (start_steps player1 (w2 ++ ev3) Hrun1) as (ev4 & Hw4 & _ & _ & Hr4 & _).
      destruct (start_events player1 (w2 ++ ev3) Hrun1)
        as (ev4' & _ & _ & _ & _ & Ht4 & _ & Hok4 & _).
      destruct (start player1 (w2 ++ ev3)) as [[started player2] w4].
      cbn [fst snd] in *. subst w4.
      destruct started; cbn [negb].
      * split; [intros [[=] | [=]] |].
        intros mgr' sfPath' [= <-] [= <-].
        split; [discriminate |]. split.
        -- intros _. split; [exact Hbank |].
           destruct (Hok4 eq_refl) as [Hrun2 _].
           destruct (Hr4 Hrun2) as (stream & Hs & _ & _ & Hrate & Hprate).
           exists player2, stream. cbn [nativeIsReady nativeGetSampleRate].
           unfold isLoaded in *. rewrite Ht4. auto 10.
        -- intros old Hg.
           repeat apply occurs_app. rewrite (Hold old Hg).
        eexists. exists []. rewrite app_nil_r. reflexivity.
      * unfold g_player_reset. cbv [mbind M_bind mret M_ret].
        rewrite OboePlayer_dtor_eq.
        split; [intros [[=] | [=]] |].
        intros mgr' sfPath' [= <-] [= <-].
        split; [reflexivity |]. split; [discriminate |].
        intros old Hg.
        repeat apply occurs_app. rewrite (Hold old Hg).
        eexists. exists []. rewrite app_nil_r. reflexivity.
    + unfold g_player_reset. cbv [mbind M_bind mret M_ret].
      rewrite OboePlayer_dtor_eq.
      split; [intros [[=] | [=]] |].
      intros mgr' sfPath' [= <-] [= <-].
      split; [reflexivity |]. split; [discriminate |].
      intros old Hg.
      repeat apply occurs_app. rewrite (Hold old Hg).
        eexists. exists []. rewrite app_nil_r. reflexivity.
  - unfold nativeInitialize. run. split; [| intros ? ? _ [=]].
    intros _. repeat split. eexists. split; [| reflexivity]. reflexivity.
  - unfold nativeInitialize. run. split; [| intros ? ? [=]].
    intros _. repeat split. eexists. split; [| reflexivity]. reflexivity.
Qed.

(** X10.  [nativeRelease] leaves the bridge without a player.  The player
    it held is destroyed between the two lines the call writes to the log:
    its stream is closed, so that no stream of the player is open, and then
    its banks.  A second [nativeRelease] only writes the two lines. *)
Theorem nativeRelease_releases (g_player : option OboePlayer) (w : Trace) :
  let '(g_player', w') := nativeRelease g_player w in
  g_player' = None
  /\ w' = w ++ [Log ANDROID_LOG_INFO NATIVE_TAG "Releasing native audio engine..." []]
           ++ match g_player with
              | Some player => dtor_events player
              | None => []
              end
           ++ [Log ANDROID_LOG_INFO NATIVE_TAG "Native audio engine released" []]
  /\ (forall player, g_player = Some player ->
                     holds_the_open_stream player w -> open_streams w' = [])
  /\ (forall w1,
        nativeRelease g_player' w1 =
          (None,
           w1 ++ [Log ANDROID_LOG_INFO NATIVE_TAG "Releasing native audio engine..." [];
                  Log ANDROID_LOG_INFO NATIVE_TAG "Native audio engine released" []])).
Proof.
  unfold nativeRelease, g_player_reset.
  cbv [mbind M_bind mret M_ret LOGI emit].
  destruct g_player as [player|].
  - rewrite OboePlayer_dtor_eq.
    split; [reflexivity |]. split; [rewrite <- !app_assoc; reflexivity |].
    split.
    + intros player' [= <-] Hholds.
      assert (Hholds1 : holds_the_open_stream player
                (w ++ [Log ANDROID_LOG_INFO NATIVE_TAG "Releasing native audio engine..." []])).
      { unfold holds_the_open_stream in *. rewrite open_streams_app. exact Hholds. }
      destruct (dtor_events_open player _ Hholds1) as [_ Hend].
      rewrite !open_streams_app. cbn [fold_left open_step].
      rewrite open_streams_app in Hend. exact Hend.
    + intros w1. rewrite <- app_assoc. reflexivity.
  - split; [reflexivity |]. split; [rewrite <- !app_assoc; reflexivity |].
    split; [discriminate |].
    intros w1. rewrite <- app_assoc. reflexivity.
Qed.

(** ** The audio callback *)

(** X12.  For any number of frames from zero up whose double is an [int]
    ([numFrames * 2 <= INT_MAX]) and fits the buffer, the audio callback
    fills the buffer and tells Oboe to continue: it never stops the stream.
    The buffer keeps its length; the only calls made are the render calls
    of the loaded voices, the instrument first; and when no instrument
    voice is loaded the floats past [numFrames * 2] are the ones that were
    there. *)
Theorem onAudioReady_continues (this : OboePlayer) (stream : ptr)
    (audioData : list float32) (numFrames : Z) (w : Trace) :
  renders_in_place ->
  0 <= numFrames ->
  numFrames * 2 <= INT_MAX ->
  numFrames * 2 <= Z.of_nat (length audioData) ->
  exists output,
    onAudioReady this stream audioData numFrames w =
      Some (Continue, output, w ++ render_calls (m_engine this) numFrames)
    /\ render (m_engine this) audioData numFrames w =
         Some (output, w ++ render_calls (m_engine this) numFrames)
    /\ length output = length audioData
    /\ (m_tsf (m_engine this) = None ->
        drop (Z.to_nat (numFrames * 2)) output = drop (Z.to_nat (numFrames * 2)) audioData).
Proof.
  intros Hplace Hpos Hint Hcap.
  set (n := Z.to_nat (numFrames * 2)).
  assert (Hn : (n <= length audioData)%nat) by (subst n; lia).
  unfold onAudioReady, render, render_calls.
  rewrite int_mul_exact by (unfold INT_MIN; split; [lia | exact Hint]).
  unfold memset_zero.
  replace ((0 <=? numFrames * 2) && (numFrames * 2 <=? Z.of_nat (length audioData)))
    with true by (symmetry; apply andb_true_iff; split; apply Z.leb_le; lia).
  fold n.
  set (zeroed := replicate n f32_0_0 ++ drop n audioData).
  assert (Hzeroed : length zeroed = length audioData).
  { subst zeroed. rewrite length_app, length_replicate, length_drop. lia. }
  assert (Hdrop : drop n zeroed = drop n audioData).
  { subst zeroed. rewrite drop_app_length' by (rewrite length_replicate; reflexivity).
    reflexivity. }
  destruct (m_tsf (m_engine this)) as [f|], (m_tsfMetronome (m_engine this)) as [fm|];
    unfold tsf_render; cbn zeta;
    rewrite ?mix_loop_spec by (rewrite ?Hplace, ?length_replicate; lia);
    rewrite ?take_0, ?drop_0; cbn [app];
    rewrite <- ?app_assoc, ?app_nil_r;
    eexists; (split; [reflexivity |]); (split; [reflexivity |]);
    rewrite ?length_app, ?length_zip_with, ?length_take, ?length_drop, ?Hplace,
      ?length_replicate, ?Hzeroed;
    (split; [lia |]); intros Hnone; try discriminate Hnone.
  - rewrite drop_app_length'; [exact Hdrop |].
    rewrite length_zip_with, !length_take, Hplace, length_replicate, Hzeroed. lia.
  - exact Hdrop.
Qed.

(** ** The banks that are loaded *)

Lemma loaded_banks_app (w l : Trace) :
  loaded_banks (w ++ l) = fold_left loaded_step l (loaded_banks w).
Proof. unfold loaded_banks. apply fold_left_app. Qed.

Lemma no_reload_loaded (events : list Event) :
  List.filter is_bank_reload events = [] ->
  forall l, fold_left loaded_step events l = l.
Proof.
  induction events as [|e events IH]; intros Hf l; [reflexivity |].
  cbn [List.filter] in Hf. cbn [fold_left].
  destruct e; cbn in Hf; try discriminate Hf; cbn [loaded_step]; apply IH, Hf.
Qed.

Lemma keeps_banks_ret {A : Type} (a : A) : keeps_banks (mret a).
Proof. intros w. exists []. rewrite app_nil_r. split; reflexivity. Qed.

Lemma keeps_banks_emit (e : Event) : is_bank_reload e = false -> keeps_banks (emit e).
Proof. intros He w. exists [e]. split; [reflexivity |]. cbn. rewrite He. reflexivity. Qed.

Lemma keeps_banks_bind {A B : Type} (c : M A) (k : A -> M B) :
  keeps_banks c -> (forall a, keeps_banks (k a)) -> keeps_banks (c ≫= k).
Proof.
  intros Hc Hk w. unfold mbind, M_bind.
  destruct (Hc w) as (ev1 & Hw1 & H1).
  destruct (c w) as [a w1]. cbn [snd] in Hw1. subst w1.
  destruct (Hk a (w ++ ev1)) as (ev2 & Hw2 & H2).
  exists (ev1 ++ ev2). rewrite Hw2, app_assoc. split; [reflexivity |].
  rewrite List.filter_app, H1, H2. reflexivity.
Qed.

Ltac banks_steps :=
  unfold LOGI, LOGE, tsf_set_output, tsf_note_on, tsf_note_off;
  repeat first
    [ apply keeps_banks_ret
    | apply keeps_banks_emit; reflexivity
    | apply keeps_banks_bind; [| intros ?]
    | match goal with
      | |- keeps_banks (match ?x with _ => _ end) => destruct x
      | |- keeps_banks (let _ := _ in _) => cbv zeta
      end ].

Lemma keeps_banks_noteOn (this : SoundFontEngine) (channel midiNote : Z) (velocity : float32) :
  keeps_banks (noteOn this channel midiNote velocity).
Proof. unfold noteOn. banks_steps. Qed.

Lemma keeps_banks_noteOff (this : SoundFontEngine) (channel midiNote : Z) :
  keeps_banks (noteOff this channel midiNote).
Proof. unfold noteOff. banks_steps. Qed.

Lemma keeps_banks_setPreset (this : SoundFontEngine) (channel preset : Z) :
  keeps_banks (setPreset this channel preset).
Proof. unfold setPreset. banks_steps. Qed.

Lemma keeps_banks_playMetronomeClick (this : SoundFontEngine) (isAccented : bool) :
  keeps_banks (playMetronomeClick this isAccented).
Proof. unfold playMetronomeClick. banks_steps. Qed.

(** Closing the banks an engine holds, when they are the banks that are
    loaded, leaves none loaded. *)
Lemma close_calls_loaded (this : SoundFontEngine) :
  NoDup (held_banks this) ->
  fold_left loaded_step (close_calls this) (held_banks this) = [].
Proof.
  unfold held_banks, close_calls.
  destruct (m_tsf this) as [f|], (m_tsfMetronome this) as [fm|]; cbn;
    rewrite ?Nat.eqb_refl; cbn; try reflexivity.
  intros Hnd. apply NoDup_cons_1_1 in Hnd.
  destruct (Nat.eqb_spec fm f) as [-> | _]; cbn.
  - exfalso. apply Hnd, list_elem_of_singleton. reflexivity.
  - rewrite Nat.eqb_refl. reflexivity.
Qed.

Lemma dtor_events_loaded (this : OboePlayer) (w : Trace) :
  loaded_banks w = held_banks (m_engine this) ->
  NoDup (held_banks (m_engine this)) ->
  loaded_banks (w ++ dtor_events this) = [].
Proof.
  intros Hl Hnd. rewrite loaded_banks_app, Hl. unfold dtor_events.
  rewrite !fold_left_app.
  rewrite (no_reload_loaded (stop_calls this))
    by (unfold stop_calls; destruct (m_stream this); reflexivity).
  cbn [fold_left loaded_step stopped_line].
  rewrite close_calls_loaded by exact Hnd. reflexivity.
Qed.

(** What [loadSoundFont] does to the banks that are loaded, and where the
    new bank sits. *)
Lemma loadSoundFont_loaded (mgr : AAssetManager) (path : string) (w : Trace) :
  let '(h, w') := loadSoundFont mgr path w in
  loaded_banks w' = loaded_banks w ++ match h with Some f => [f] | None => [] end
  /\ (length w <= length w')%nat
  /\ (forall f, h = Some f -> (length w <= f < length w')%nat).
Proof.
  unfold loadSoundFont.
  destruct (AAssetManager_open mgr path) as [asset|].
  - destruct (AAsset_getBuffer asset) as [bytes|].
    + destruct (AAsset_getLength asset <=? 0).
      * run. rewrite loaded_banks_app, length_app, app_nil_r. cbn.
        repeat split; try lia; congruence.
      * unfold tsf_load_memory, tsf_presetcount. run.
        destruct (tsf_load_memory_ok bytes (to_int (AAsset_getLength asset))); run;
          rewrite loaded_banks_app, ?length_app, ?app_nil_r; cbn.
        -- repeat split; try lia; match goal with H : Some _ = Some _ |- _ => injection H as <- end; lia.
        -- repeat split; try lia; congruence.
    + run. rewrite loaded_banks_app, length_app, app_nil_r. cbn.
      repeat split; try lia; congruence.
  - run. rewrite loaded_banks_app, length_app, app_nil_r. cbn.
    repeat split; try lia; congruence.
Qed.

(** [initialize] on an engine that holds the banks that are loaded leaves
    an engine that holds the banks that are loaded. *)
Lemma initialize_loaded_banks (this : SoundFontEngine) (mgr : AAssetManager)
    (pianoSfPath metronomeSfPath : string) (w : Trace) :
  loaded_banks w = held_banks this ->
  NoDup (held_banks this) ->
  let '(ok, this', w') := initialize this mgr pianoSfPath metronomeSfPath w in
  loaded_banks w' = held_banks this' /\ NoDup (held_banks this').
Proof.
  intros Hl Hnd. rewrite initialize_eq. cbv zeta.
  assert (Hclosed : loaded_banks (w ++ close_calls this) = []).
  { rewrite loaded_banks_app, Hl. apply close_calls_loaded, Hnd. }
  pose proof (loadSoundFont_loaded mgr pianoSfPath (w ++ close_calls this)) as Hp.
  destruct (loadSoundFont mgr pianoSfPath _) as [hp w3].
  destruct Hp as (Hl3 & Hlen3 & Hf3). rewrite Hclosed in Hl3.
  destruct hp as [f|].
  - match goal with |- context [loadSoundFont mgr metronomeSfPath ?w0] =>
      pose proof (loadSoundFont_loaded mgr metronomeSfPath w0) as Hm;
      destruct (loadSoundFont mgr metronomeSfPath w0) as [hm w4]
    end.
    destruct Hm as (Hl4 & Hlen4 & Hf4).
    rewrite loaded_banks_app, Hl3 in Hl4. cbn [app fold_left loaded_step] in Hl4.
    split.
    + rewrite loaded_banks_app, Hl4.
      rewrite no_reload_loaded by (unfold click_bank_events; destruct hm; reflexivity).
      unfold held_banks. cbn. reflexivity.
    + unfold held_banks. cbn. destruct hm as [fm|]; cbn.
      * specialize (Hf3 f eq_refl). specialize (Hf4 fm eq_refl).
        rewrite length_app in Hf4. cbn in Hf4.
        apply NoDup_cons. split; [| apply NoDup_singleton].
        rewrite list_elem_of_singleton. lia.
      * apply NoDup_singleton.
  - split; [exact Hl3 | apply NoDup_nil; exact I].
Qed.

Lemma start_banks (this : OboePlayer) (w : Trace) :
  m_isRunning this = false ->
  loaded_banks (snd (start this w)) = loaded_banks w
  /\ held_banks (m_engine (snd (fst (start this w)))) = held_banks (m_engine this).
Proof.
  intros Hrun.
  destruct (start_events this w Hrun) as (events & Hw & _ & _ & Hreload & Ht & Htm & _).
  rewrite Hw, loaded_banks_app, (no_reload_loaded _ Hreload).
  unfold held_banks. rewrite Ht, Htm. split; reflexivity.
Qed.

Lemma stream_error_banks (this : OboePlayer) (stream : ptr) (error : Result) (w : Trace) :
  loaded_banks (snd (stream_error this stream error w)) = loaded_banks w
  /\ held_banks (m_engine (fst (stream_error this stream error w))) =
       held_banks (m_engine this).
Proof.
  unfold stream_error, onErrorAfterClose, reopenStream.
  cbv [mbind M_bind mret M_ret LOGI LOGE emit].
  destruct (m_isRunning this).
  - rewrite stop_eq.
    match goal with |- context [start ?p ?w1] =>
      destruct (start_banks p w1 eq_refl) as [Hl Hh];
      destruct (start p w1) as [[ok this'] w']
    end.
    cbn [fst snd] in *. rewrite Hl, Hh. split; [| reflexivity].
    rewrite !loaded_banks_app. unfold stop_calls.
    destruct (m_stream this); reflexivity.
  - cbn [fst snd]. split; [| reflexivity].
    rewrite !loaded_banks_app. reflexivity.
Qed.

Lemma banks_invariant_forward (player : OboePlayer) (c : M SoundFontEngine) (w : Trace) :
  keeps_banks c ->
  fst (c w) = m_engine player ->
  banks_invariant (Some player) w ->
  banks_invariant (Some (set_m_engine (fst (c w)) player)) (snd (c w)).
Proof.
  intros Hc Hsame Hinv. rewrite Hsame, set_m_engine_same.
  destruct (Hc w) as (events & -> & Hev).
  unfold banks_invariant in *. rewrite loaded_banks_app, (no_reload_loaded _ Hev).
  exact Hinv.
Qed.

Lemma banks_invariant_reset (g : option OboePlayer) (w : Trace) :
  banks_invariant g w ->
  fst (g_player_reset g w) = None
  /\ banks_invariant None (snd (g_player_reset g w)).
Proof.
  intros [Hl Hnd]. unfold g_player_reset.
  destruct g as [player|].
  - cbv [mbind M_bind mret M_ret]. rewrite OboePlayer_dtor_eq. cbn [fst snd].
    split; [reflexivity |].
    split; [apply dtor_events_loaded; assumption | apply NoDup_nil; exact I].
  - cbn. repeat split; assumption.
Qed.

Lemma banks_invariant_events (g : option OboePlayer) (w events : Trace) :
  List.filter is_bank_reload events = [] ->
  banks_invariant g w -> banks_invariant g (w ++ events).
Proof.
  intros Hev. unfold banks_invariant.
  rewrite loaded_banks_app, (no_reload_loaded _ Hev). auto.
Qed.

Lemma bridge_call_banks (c : BridgeCall) (g : option OboePlayer) (w : Trace) :
  banks_invariant g w ->
  banks_invariant (fst (bridge_call c g w)) (snd (bridge_call c g w)).
Proof.
  intros Hinv.
  destruct c as [mgr path | channel midiNote velocity | channel midiNote | isAccented
                | channel preset | | stream error]; cbn [bridge_call].
  - (* nativeInitialize *)
    unfold nativeInitialize.
    cbv [mbind M_bind mret M_ret LOGI LOGE emit].
    destruct mgr as [mgr|]; [destruct path as [path|] |];
      [| cbn [fst snd]; rewrite <- app_assoc;
         apply banks_invariant_events; [reflexivity | exact Hinv] ..].
    rewrite OboePlayer_ctor_eq.
    match goal with |- context [g_player_reset g ?w1] =>
      assert (Hinv1 : banks_invariant g w1)
        by (rewrite <- app_assoc; apply banks_invariant_events; [reflexivity | exact Hinv]);
      pose proof (banks_invariant_reset g w1 Hinv1) as [_ Hinv2];
      destruct (g_player_reset g w1) as [g1 w2]
    end.
    cbn [snd] in Hinv2. destruct Hinv2 as [Hl2 _].
    unfold initialize_legacy.
    match goal with |- context [initialize ?e mgr path ?m w2] =>
      pose proof (initialize_loaded_banks e mgr path m w2 Hl2
                    ltac:(apply NoDup_nil; exact I)) as Hinv3;
      destruct (initialize e mgr path m w2) as [[sfLoaded engine] w3]
    end.
    set (player1 := set_m_engine engine (new_player _)).
    assert (Hinv3' : banks_invariant (Some player1) w3) by exact Hinv3.
    destruct sfLoaded; cbn [negb].
    + destruct (start_banks player1 w3 eq_refl) as [Hl4 Hh4].
      destruct (start player1 w3) as [[started player2] w4]. cbn [fst snd] in *.
      assert (Hinv4 : banks_invariant (Some player2) w4).
      { unfold banks_invariant. rewrite Hl4, Hh4. exact Hinv3'. }
      destruct started; cbn [negb fst snd].
      * apply banks_invariant_events; [reflexivity | exact Hinv4].
      * match goal with |- context [g_player_reset (Some player2) (?w5 ++ ?ev)] =>
          pose proof (banks_invariant_reset (Some player2) (w5 ++ ev)
                        (banks_invariant_events (Some player2) w5 ev eq_refl Hinv4))
            as [Hnone Hinv6];
          destruct (g_player_reset (Some player2) (w5 ++ ev)) as [g6 w6]
        end.
        cbn [fst snd] in *. subst g6. exact Hinv6.
    + match goal with |- context [g_player_reset (Some player1) (?w5 ++ ?ev)] =>
        pose proof (banks_invariant_reset (Some player1) (w5 ++ ev)
                      (banks_invariant_events (Some player1) w5 ev eq_refl Hinv3'))
          as [Hnone Hinv6];
        destruct (g_player_reset (Some player1) (w5 ++ ev)) as [g6 w6]
      end.
      cbn [fst snd] in *. subst g6. exact Hinv6.
  - unfold nativeNoteOn. destruct g as [player|]; [| exact Hinv].
    cbv [mbind M_bind mret M_ret].
    pose proof (banks_invariant_forward player
                  (noteOn (m_engine player) channel midiNote velocity) w
                  (keeps_banks_noteOn _ _ _ _) (noteOn_same _ _ _ _ _) Hinv) as H.
    destruct (noteOn (m_engine player) channel midiNote velocity w). exact H.
  - unfold nativeNoteOff. destruct g as [player|]; [| exact Hinv].
    cbv [mbind M_bind mret M_ret].
    pose proof (banks_invariant_forward player
                  (noteOff (m_engine player) channel midiNote) w
                  (keeps_banks_noteOff _ _ _) (noteOff_same _ _ _ _) Hinv) as H.
    destruct (noteOff (m_engine player) channel midiNote w). exact H.
  - unfold nativePlayMetronome. destruct g as [player|]; [| exact Hinv].
    cbv [mbind M_bind mret M_ret].
    pose proof (banks_invariant_forward player
                  (playMetronomeClick (m_engine player) isAccented) w
                  (keeps_banks_playMetronomeClick _ _) (playMetronomeClick_same _ _ _) Hinv)
      as H.
    destruct (playMetronomeClick (m_engine player) isAccented w). exact H.
  - unfold nativeSetPreset. destruct g as [player|]; [| exact Hinv].
    cbv [mbind M_bind mret M_ret].
    pose proof (banks_invariant_forward player
                  (setPreset (m_engine player) channel preset) w
                  (keeps_banks_setPreset _ _ _) eq_refl Hinv) as H.
    destruct (setPreset (m_engine player) channel preset w). exact H.
  - unfold nativeRelease. cbv [mbind M_bind mret M_ret LOGI emit].
    match goal with |- context [g_player_reset g (?w1 ++ ?ev)] =>
      pose proof (banks_invariant_reset g (w1 ++ ev)
                    (banks_invariant_events g w1 ev eq_refl Hinv)) as [Hnone Hinv2];
      destruct (g_player_reset g (w1 ++ ev)) as [g1 w2]
    end.
    cbn [fst snd] in *. subst g1. apply banks_invariant_events; [reflexivity | exact Hinv2].
  - destruct g as [player|]; [| exact Hinv].
    cbv [mbind M_bind mret M_ret].
    destruct (stream_error_banks player stream error w) as [Hl Hh].
    destruct (stream_error player stream error w) as [player' w']. cbn [fst snd] in *.
    unfold banks_invariant in *. rewrite Hl, Hh. exact Hinv.
Qed.

Lemma bridge_calls_banks (cs : list BridgeCall) :
  forall (g : option OboePlayer) (w : Trace),
    banks_invariant g w ->
    banks_invariant (fst (bridge_calls cs g w)) (snd (bridge_calls cs g w)).
Proof.
  induction cs as [|c cs IH]; intros g w Hinv.
  - exact Hinv.
  - cbn [bridge_calls]. cbv [mbind M_bind].
    pose proof (bridge_call_banks c g w Hinv) as Hstep.
    destruct (bridge_call c g w) as [g1 w1]. cbn [fst snd] in Hstep.
    apply IH, Hstep.
Qed.

(** X13.  Start with no player and no bank loaded, and let the host make
    any calls to the bridge, with stream errors in between.  Then the banks
    that are loaded and not yet closed are the banks the engine of the
    player holds, each once: none has been lost, and none that the engine
    holds has been closed.  Without a player no bank is loaded. *)
Theorem bridge_banks (cs : list BridgeCall) (w0 : Trace) :
  loaded_banks w0 = [] ->
  let '(g_player, w) := bridge_calls cs g_player_initial w0 in
  loaded_banks w =
    match g_player with
    | Some player => held_banks (m_engine player)
    | None => []
    end
  /\ NoDup (loaded_banks w).
Proof.
  intros Hl0.
  assert (Hinv : banks_invariant g_player_initial w0)
    by (split; [exact Hl0 | apply NoDup_nil; exact I]).
  pose proof (bridge_calls_banks cs g_player_initial w0 Hinv) as Hfinal.
  destruct (bridge_calls cs g_player_initial w0) as [g w]. cbn [fst snd] in Hfinal.
  destruct Hfinal as [Hl Hnd]. rewrite Hl. split; [reflexivity | exact Hnd].
Qed.

End Model.

(** ** The theorems at work on the demo platform *)

Lemma demo_renders_in_place : @renders_in_place demo_platform.
Proof.
  intros w f buffer samples flag_mixing. cbn [tsf_render_float demo_platform].
  unfold demo_render. rewrite length_app, length_replicate, length_drop. lia.
Qed.

(** [render_mixes] on two frames, both voices loaded, into a buffer of six
    floats: the banks at addresses 3 and 5 write 3.0 and 5.0, the first four
    floats are 8.0, well above 1.0, and the last two are as they were. *)
Lemma render_mixes_witness :
  0 < 2
  /\ 2 * 2 <= INT_MAX
  /\ 2 * 2 <= Z.of_nat (length demo_buffer)
  /\ render (platform := demo_platform) demo_engine demo_buffer 2 [] =
       Some (replicate 4 (f32_of_Z 8) ++ replicate 2 f32_0_8,
             [TsfRenderFloat 3%nat 2 0; TsfRenderFloat 5%nat 2 0])
  /\ render (platform := demo_platform) demo_engine_empty demo_buffer 2 [] =
       Some (replicate 4 f32_0_0 ++ replicate 2 f32_0_8, []).
Proof.
  split; [lia |]. split; [vm_compute; discriminate |].
  split; [vm_compute; discriminate |]. split.
  - exact (proj1 (render_mixes (platform := demo_platform) demo_engine demo_buffer 2 []
                    demo_renders_in_place eq_refl
                    ltac:(vm_compute; discriminate)
                    ltac:(vm_compute; discriminate))).
  - exact (proj2 (render_mixes (platform := demo_platform) demo_engine_empty demo_buffer 2 []
                    demo_renders_in_place eq_refl
                    ltac:(vm_compute; discriminate)
                    ltac:(vm_compute; discriminate))
             eq_refl eq_refl).
Defined.

(** The claim without the bound fails at [2 ^ 30] frames: the buffer of
    [2 ^ 31] floats has the capacity asked for, neither voice is loaded, and
    yet [2 ^ 30 * 2] is one more than [INT_MAX], so the call is undefined
    instead of leaving zeros. *)
Lemma render_mixes_counterexample :
  0 < 2 ^ 30
  /\ 2 ^ 30 * 2 <= Z.of_nat (length demo_buffer_huge)
  /\ m_tsf demo_engine_empty = None
  /\ m_tsfMetronome demo_engine_empty = None
  /\ INT_MAX < 2 ^ 30 * 2
  /\ render (platform := demo_platform) demo_engine_empty demo_buffer_huge (2 ^ 30) [] = None
  /\ render (platform := demo_platform) demo_engine_empty demo_buffer_huge (2 ^ 30) [] <>
       Some (replicate (Z.to_nat (2 ^ 30 * 2)) f32_0_0
               ++ drop (Z.to_nat (2 ^ 30 * 2)) demo_buffer_huge, []).
Proof.
  assert (Hover : INT_MAX < 2 ^ 30 * 2) by reflexivity.
  assert (Hnone : render (platform := demo_platform) demo_engine_empty demo_buffer_huge
                    (2 ^ 30) [] = None).
  { unfold render. rewrite (int_mul_overflow _ _ Hover). reflexivity. }
  split; [reflexivity |]. split.
  { unfold demo_buffer_huge.
    rewrite length_replicate, Z2Nat.id by (apply Z.pow_nonneg; lia).
    apply Z.leb_le. reflexivity. }
  split; [reflexivity |]. split; [reflexivity |]. split; [exact Hover |].
  split; [exact Hnone |]. rewrite Hnone. discriminate.
Qed.

(** [playMetronomeClick_retriggers] on the engine whose click voice is the
    bank at address 5. *)
Lemma playMetronomeClick_retriggers_witness :
  m_tsfMetronome demo_engine = Some 5%nat
  /\ playMetronomeClick demo_engine false [] =
       (demo_engine,
        [TsfNoteOff 5%nat 0 77;
         TsfNoteOff 5%nat 0 76;
         TsfNoteOn 5%nat 0 77 f32_0_8;
         Log ANDROID_LOG_INFO SF_TAG "Metronome click (SoundFont): note=%d, accented=%d"
           [ArgInt 77; ArgInt 0]])
  /\ sounding
       (snd (playMetronomeClick demo_engine false (snd (playMetronomeClick demo_engine true []))))
       5%nat 0 76 = false.
Proof.
  split; [reflexivity |]. split.
  - exact (proj1 (playMetronomeClick_retriggers demo_engine 5%nat [] eq_refl) false).
  - exact (proj1 (proj2 (proj2 (playMetronomeClick_retriggers demo_engine 5%nat [] eq_refl)))).
Defined.

(** [initialize_outcomes] on a piano bank that does not exist, and on
    assets that have the piano bank and no metronome bank. *)
Lemma initialize_outcomes_witness :
  (let '(ok, this', w') :=
     initialize (platform := demo_platform) demo_engine demo_assets
       "soundfonts/missing.sf2" "soundfonts/Metronom.sf2" [] in
   ok = false /\ m_tsf this' = None /\ m_tsfMetronome this' = None)
  /\ (let '(ok, this', w') :=
        initialize (platform := demo_platform) demo_engine_empty demo_assets_piano_only
          "soundfonts/gm.sf2" "soundfonts/Metronom.sf2" [] in
      ok = true /\ isLoaded this' = true /\ m_tsfMetronome this' = None).
Proof.
  split.
  - exact (proj1 (initialize_outcomes (platform := demo_platform) demo_engine demo_assets
                    "soundfonts/missing.sf2" "soundfonts/Metronom.sf2" [])
             (fun w0 => eq_refl)).
  - pose proof (proj2 (initialize_outcomes (platform := demo_platform) demo_engine_empty
                         demo_assets_piano_only "soundfonts/gm.sf2" "soundfonts/Metronom.sf2" [])
                  (fun w0 => ex_intro _ _ eq_refl) (fun w0 => eq_refl)) as H.
    exact (conj (proj1 H) (conj (proj1 (proj2 H)) (proj1 (proj2 (proj2 (proj2 (proj2 H))))))).
Defined.

(** [onErrorAfterClose_recovers] on a player that is not running, and on one
    that is: the stream at address 1 is replaced by a new one. *)
Lemma onErrorAfterClose_recovers_witness :
  onErrorAfterClose (platform := demo_platform) demo_player 1%nat (Error (-899)) [] =
    (demo_player, [error_line (Error (-899))])
  /\ m_isRunning demo_player_running = true
  /\ m_isRunning
       (fst (onErrorAfterClose (platform := demo_platform) demo_player_running 1%nat
               (Error (-899)) demo_trace_running)) = true.
Proof.
  split; [| split; [reflexivity |]].
  - exact (proj1 (onErrorAfterClose_recovers (platform := demo_platform) demo_player 1%nat
                    (Error (-899)) []) eq_refl).
  - pose proof (proj2 (onErrorAfterClose_recovers (platform := demo_platform)
                         demo_player_running 1%nat (Error (-899)) demo_trace_running)
                  eq_refl) as H.
    exact (proj1 (proj2 (proj2 (proj2 (proj2 H)))) eq_refl).
Defined.

(** [start_outcomes] on a running player, on one whose stream does not
    open, on one whose stream opens and starts, and on one whose stream
    opens and does not start. *)
Lemma start_outcomes_witness :
  start (platform := demo_platform) demo_player_running demo_trace_running =
    (true, demo_player_running, demo_trace_running)
  /\ (let '(ok, this', w') := start (platform := demo_platform) demo_player_no_rate [] in
      ok = false /\ m_isRunning this' = false /\ m_stream this' = None)
  /\ (let '(ok, this', w') := start (platform := demo_platform) demo_player [] in
      ok = true /\ m_isRunning this' = true /\ m_sampleRate (m_engine this') = 44100)
  /\ (let '(ok, this', w') := start (platform := demo_platform) demo_player_mono [] in
      ok = false /\ m_isRunning this' = false /\ m_stream this' = None
      /\ open_streams w' = []).
Proof.
  split; [| split; [| split]].
  - exact (proj1 (start_outcomes (platform := demo_platform) demo_player_running
                    demo_trace_running) eq_refl).
  - pose proof (proj1 (proj2 (start_outcomes (platform := demo_platform) demo_player_no_rate []))
                  eq_refl (-889)
                  {| n_sampleRate := 0; n_channelCount := 0; n_framesPerBurst := 0 |}
                  eq_refl) as H.
    exact (conj (proj1 H) (conj (proj1 (proj2 H)) (proj1 (proj2 (proj2 H))))).
  - pose proof (proj2 (proj2 (start_outcomes (platform := demo_platform) demo_player []))
                  eq_refl
                  {| n_sampleRate := 44100; n_channelCount := 2; n_framesPerBurst := 192 |}
                  eq_refl) as H.
    exact (conj (proj1 (proj2 (proj2 (proj2 H))))
             (conj (proj1 (proj2 (proj2 (proj2 (proj2 H))))) (proj1 (proj2 (proj2 H))))).
  - pose proof (proj2 (proj2 (start_outcomes (platform := demo_platform) demo_player_mono []))
                  eq_refl
                  {| n_sampleRate := 44100; n_channelCount := 1; n_framesPerBurst := 192 |}
                  eq_refl) as H.
    exact (conj (proj1 (proj2 (proj2 (proj2 H))))
             (conj (proj1 (proj2 (proj2 (proj2 (proj2 H)))))
                (conj (proj1 (proj2 (proj2 (proj2 (proj2 (proj2 H)))))) eq_refl))).
Defined.

(** [running_invariant] on a start, an error on the stream the start
    opened, a stop and another start. *)
Lemma running_invariant_witness :
  let '(this, w) :=
    calls (platform := demo_platform)
      [CallStart; StreamError 0%nat (Error (-899)); CallStop; CallStart] demo_player [] in
  exists stream,
    m_stream this = Some stream
    /\ open_streams w = [stream_addr stream]
    /\ b_dataCallback (stream_builder stream) = Some (this_addr this)
    /\ b_errorCallback (stream_builder stream) = Some (this_addr this)
    /\ m_sampleRate (m_engine this) = getSampleRate stream.
Proof.
  exact (proj1 (running_invariant (platform := demo_platform) demo_player []
                  [CallStart; StreamError 0%nat (Error (-899)); CallStop; CallStart]
                  eq_refl eq_refl eq_refl) eq_refl).
Defined.

(** [noteOn_ignores_preset] on preset 17 and middle C. *)
Lemma noteOn_ignores_preset_witness :
  m_tsf demo_engine = Some 3%nat
  /\ snd (noteOn demo_engine 9 60 f32_0_8 (snd (setPreset demo_engine 9 17 []))) =
       [Log ANDROID_LOG_INFO SF_TAG "Set preset: channel=%d, preset=%d" [ArgInt 9; ArgInt 17];
        Log ANDROID_LOG_INFO SF_TAG "Note ON: channel=%d, note=%d, velocity=%.2f"
          [ArgInt 9; ArgInt 60; ArgFloat f32_0_8];
        TsfNoteOn 3%nat 0 60 f32_0_8].
Proof.
  split; [reflexivity |].
  exact (proj1 (proj2 (proj2 (proj2
           (noteOn_ignores_preset demo_engine 3%nat 9 17 9 60 f32_0_8 [] eq_refl))))).
Defined.

(** [bridge_without_player] on a [nativeInitialize] that gets no asset
    manager. *)
Lemma bridge_without_player_witness :
  fst (fst (nativeInitialize (platform := demo_platform) None None None [])) = false
  /\ snd (fst (nativeInitialize (platform := demo_platform) None None None [])) = None.
Proof.
  split; [reflexivity |].
  exact (proj1 (proj2 (proj2 (bridge_without_player (platform := demo_platform) [])))
           None None eq_refl).
Defined.

(** [loadSoundFont_size] on an asset of 2^31 + 4 bytes: the synthesiser is
    told 4 - 2^31. *)
Lemma loadSoundFont_size_witness :
  asset_data demo_assets_huge "soundfonts/huge.sf2" = Some ([x52], 2 ^ 31 + 4)
  /\ List.filter is_load
       (snd (loadSoundFont (platform := demo_platform) demo_assets_huge
               "soundfonts/huge.sf2" [])) =
       [TsfLoadMemory [x52] (4 - 2 ^ 31) (Some 1%nat)].
Proof.
  split; [reflexivity |].
  destruct (loadSoundFont_size (platform := demo_platform) demo_assets_huge
              "soundfonts/huge.sf2" [x52] (2 ^ 31 + 4) [] eq_refl)
    as (size & events & Hw & Hload & _ & _ & Hbig).
  destruct (Hbig ltac:(lia)) as [-> _].
  rewrite Hw. exact Hload.
Defined.

(** [initialize_result] on the demo assets: both voices, at addresses 1 and
    6, are configured for 44100 Hz. *)
Lemma initialize_result_witness :
  let '(ok, this', w') :=
    initialize (platform := demo_platform) new_engine demo_assets
      "soundfonts/gm.sf2" "soundfonts/Metronom.sf2" [] in
  m_tsf this' = Some 1%nat
  /\ m_tsfMetronome this' = Some 6%nat
  /\ tsf_output w' 1%nat = configured_for 44100
  /\ tsf_output w' 6%nat = configured_for 44100.
Proof.
  pose proof (initialize_result (platform := demo_platform) new_engine demo_assets
                "soundfonts/gm.sf2" "soundfonts/Metronom.sf2" []) as H.
  cbv beta iota zeta delta -[tsf_output configured_for] in H.
  cbv beta iota zeta delta -[tsf_output configured_for].
  destruct H as (_ & _ & _ & _ & Hp & Hm).
  exact (conj eq_refl (conj eq_refl (conj (Hp 1%nat eq_refl) (Hm 6%nat eq_refl)))).
Defined.

(** [noteOn_noteOff_round_trip] on middle C, on and off on different
    channels. *)
Lemma noteOn_noteOff_round_trip_witness :
  m_tsf demo_engine = Some 3%nat
  /\ sounding (snd (noteOn demo_engine 0 60 f32_0_8 [])) 3%nat 0 60 = true
  /\ sounding (snd (noteOff demo_engine 9 60 (snd (noteOn demo_engine 0 60 f32_0_8 []))))
       3%nat 0 60 = false.
Proof.
  split; [reflexivity |].
  pose proof (proj1 (noteOn_noteOff_round_trip demo_engine 0 9 60 f32_0_8 [])
                3%nat eq_refl) as H.
  exact (conj (proj1 (proj2 H)) (proj1 (proj2 (proj2 H)))).
Defined.

(** [playMetronomeClick_exclusive] on an accented click that comes while
    the normal pitch sounds. *)
Lemma playMetronomeClick_exclusive_witness :
  m_tsfMetronome demo_engine = Some 5%nat
  /\ sounding [TsfNoteOn 5%nat 0 77 f32_0_8] 5%nat 0 77 = true
  /\ sounding (snd (playMetronomeClick demo_engine true [TsfNoteOn 5%nat 0 77 f32_0_8]))
       5%nat 0 77 = false.
Proof.
  split; [reflexivity |]. split; [reflexivity |].
  exact (proj2 (playMetronomeClick_exclusive demo_engine 5%nat true
                  [TsfNoteOn 5%nat 0 77 f32_0_8] eq_refl)).
Defined.

(** [setSampleRate_last_wins] on 48000 Hz followed by 44100 Hz. *)
Lemma setSampleRate_last_wins_witness :
  m_tsf demo_engine = Some 3%nat
  /\ tsf_output
       (snd (setSampleRate (fst (setSampleRate demo_engine 48000 [])) 44100
               (snd (setSampleRate demo_engine 48000 []))))
       3%nat = configured_for 44100.
Proof.
  split; [reflexivity |].
  pose proof (setSampleRate_last_wins demo_engine 48000 44100 []) as H.
  exact (proj2 (proj2 (proj2 (proj2 H))) 3%nat (or_introl eq_refl)).
Defined.

(** [OboePlayer_dtor_releases] on the player that runs on the stream at
    address 1. *)
Lemma OboePlayer_dtor_releases_witness :
  holds_the_open_stream demo_player_running demo_trace_running
  /\ open_streams (snd (OboePlayer_dtor demo_player_running demo_trace_running)) = []
  /\ tsf_output (snd (OboePlayer_dtor demo_player_running demo_trace_running)) 3%nat = None.
Proof.
  pose proof (OboePlayer_dtor_releases demo_player_running demo_trace_running) as H.
  split; [reflexivity |]. split.
  - exact (proj1 (proj2 H) eq_refl).
  - exact (proj1 (proj2 (proj2 H) 3%nat (or_introl eq_refl))).
Defined.

(** A theorem at an input, with its statement evaluated there. *)
Tactic Notation "evaluated" constr(t) "as" ident(H) :=
  let T := type of t in
  let T' := eval vm_compute in T in
  pose proof (t <: T') as H.

(** [nativeInitialize_outcomes] on the demo assets, and without an asset
    manager while a player is running. *)
Lemma nativeInitialize_outcomes_witness :
  nativeIsReady
    (snd (fst (nativeInitialize (platform := demo_platform) None (Some demo_assets)
                 (Some "soundfonts/gm.sf2"%string) []))) = true
  /\ snd (fst (nativeInitialize (platform := demo_platform) (Some demo_player_running) None
                 (Some "soundfonts/gm.sf2"%string) demo_trace_running)) = Some demo_player_running.
Proof.
  split.
  - evaluated (nativeInitialize_outcomes (platform := demo_platform) None (Some demo_assets)
                 (Some "soundfonts/gm.sf2"%string) []) as H.
    destruct H as [_ H].
    destruct (H _ _ eq_refl eq_refl) as (_ & Hok & _).
    destruct (Hok eq_refl) as (_ & player & stream & _ & _ & _ & Hready & _).
    vm_compute. exact Hready.
  - evaluated (nativeInitialize_outcomes (platform := demo_platform)
                 (Some demo_player_running) None (Some "soundfonts/gm.sf2"%string)
                 demo_trace_running) as H.
    destruct H as [H _].
    destruct (H (or_introl eq_refl)) as (_ & Hsame & _).
    vm_compute. exact Hsame.
Defined.

(** [nativeRelease_releases] on the player that runs on the stream at
    address 1. *)
Lemma nativeRelease_releases_witness :
  holds_the_open_stream demo_player_running demo_trace_running
  /\ open_streams
       (snd (nativeRelease (Some demo_player_running) demo_trace_running)) = [].
Proof.
  split; [reflexivity |].
  evaluated (nativeRelease_releases (Some demo_player_running) demo_trace_running) as H.
  destruct H as (_ & _ & Hopen & _).
  vm_compute. exact (Hopen _ eq_refl eq_refl).
Defined.

(** [bridge_runs] on an initialisation, a note, an error on the stream, a
    second initialisation and a click: the bridge is ready and one stream is
    open. *)
Lemma bridge_runs_witness :
  let '(g_player, w) :=
    bridge_calls (platform := demo_platform)
      [NativeInitialize (Some demo_assets) (Some "soundfonts/gm.sf2"%string);
       NativeNoteOn 0 60 f32_0_8;
       NativeStreamError 0%nat (Error (-899));
       NativeInitialize (Some demo_assets) (Some "soundfonts/gm.sf2"%string);
       NativePlayMetronome true]
      g_player_initial [] in
  nativeIsReady g_player = true /\ length (open_streams w) = 1%nat.
Proof.
  evaluated (bridge_runs (platform := demo_platform)
                [NativeInitialize (Some demo_assets) (Some "soundfonts/gm.sf2"%string);
                 NativeNoteOn 0 60 f32_0_8;
                 NativeStreamError 0%nat (Error (-899));
                 NativeInitialize (Some demo_assets) (Some "soundfonts/gm.sf2"%string);
                 NativePlayMetronome true]
                [] eq_refl) as H.
  destruct H as (_ & Hready & _ & Hrun).
  destruct (Hrun _ eq_refl eq_refl) as (stream & _ & Hopen & _).
  vm_compute. split; [exact Hready |].
  apply (f_equal (@length _)) in Hopen. exact Hopen.
Defined.

(** [onAudioReady_continues] on a callback for two frames into a buffer of
    six floats, both voices loaded: the first four floats are filled with
    the sum of the two voices, 8.0, the last two are as they were, and Oboe
    is told to continue. *)
Lemma onAudioReady_continues_witness :
  0 <= 2
  /\ 2 * 2 <= INT_MAX
  /\ 2 * 2 <= Z.of_nat (length demo_buffer)
  /\ onAudioReady (platform := demo_platform) demo_player_running 1%nat demo_buffer 2 [] =
       Some (Continue, replicate 4 (f32_of_Z 8) ++ replicate 2 f32_0_8,
             [TsfRenderFloat 3%nat 2 0; TsfRenderFloat 5%nat 2 0]).
Proof.
  split; [lia |]. split; [vm_compute; discriminate |].
  split; [vm_compute; discriminate |].
  destruct (onAudioReady_continues (platform := demo_platform) demo_player_running 1%nat
              demo_buffer 2 [] demo_renders_in_place ltac:(lia)
              ltac:(vm_compute; discriminate) ltac:(vm_compute; discriminate))
    as (output & Hcall & Hrender & _).
  rewrite Hcall. vm_compute in Hrender. injection Hrender as <-. reflexivity.
Defined.

(** [bridge_banks] on an initialisation, an error on the stream and a
    second initialisation: two banks are loaded, those of the second
    player. *)
Lemma bridge_banks_witness :
  loaded_banks [] = []
  /\ let '(g_player, w) :=
       bridge_calls (platform := demo_platform)
         [NativeInitialize (Some demo_assets) (Some "soundfonts/gm.sf2"%string);
          NativeStreamError 0%nat (Error (-899));
          NativeInitialize (Some demo_assets) (Some "soundfonts/gm.sf2"%string)]
         g_player_initial [] in
     length (loaded_banks w) = 2%nat
     /\ loaded_banks w = List.flat_map (fun player => held_banks (m_engine player))
                           (match g_player with Some player => [player] | None => [] end).
Proof.
  split; [reflexivity |].
  evaluated (bridge_banks (platform := demo_platform)
               [NativeInitialize (Some demo_assets) (Some "soundfonts/gm.sf2"%string);
                NativeStreamError 0%nat (Error (-899));
                NativeInitialize (Some demo_assets) (Some "soundfonts/gm.sf2"%string)]
               [] eq_refl) as H.
  destruct H as [Hl _].
  vm_compute. split; [exact (f_equal (@length _) Hl) | exact Hl].
Defined.

(** [loadSoundFont_result] on the piano bank of the demo assets. *)
Lemma loadSoundFont_result_witness :
  bank_loads (platform := demo_platform) demo_assets "soundfonts/gm.sf2" = true
  /\ is_Some (fst (loadSoundFont (platform := demo_platform) demo_assets
                     "soundfonts/gm.sf2" [])).
Proof.
  split; [reflexivity |].
  pose proof (loadSoundFont_result (platform := demo_platform) demo_assets
                "soundfonts/gm.sf2" []) as H.
  exact (proj2 (proj1 H) eq_refl).
Defined.
